(** * The pooled allocator of [ram.py] ([MemoryManager])

    A shallow embedding of the size-class allocator, its garbage collector,
    its defragmenter and its reporting functions, followed by the properties
    that the natural-language specification states about them.

    Conventions of the embedding.
    - Python objects that are shared by reference (the block dictionaries
      held in the [available] and [allocated] lists) live in an object
      store [heap]; lists hold references (indices into the store).
    - [time.time()] and [random.randint] read two oracles carried by the
      world, [clock] and [entropy], each with a read counter.
    - Python floats are represented by exact rationals ([Q]); a formatted
      float ([f"{x:.1f}"]) is kept as the number it formats.
    - A Python exception is the outcome [Raise]; the state reached when it
      was raised is kept, as in Python. The text carried by [Raise] names
      the exception and is indicative only.
    - The rendering of [last_gc_time] as a time of day in the report of
      [get_memory_info] is left out: the report keeps the timestamp. *)

From Stdlib Require Import ZArith QArith Lia Lqa.
From stdpp Require Import base tactics option list sorting strings pretty gmap.

Local Open Scope Z_scope.

(** ** Data *)

(** A reference to a block dictionary: its index in the object store. *)
Abbreviation ref := nat (only parsing).

(** The dictionary built in [_initialize_memory_pools]; the key
    ['priority'] is absent until the first allocation. *)
Record Block := mkBlock {
  b_id : string;
  b_size : Z;
  b_allocated_at : option Q;
  b_last_access : option Q;
  b_priority : option string
}.

Global Instance Block_inhabited : Inhabited Block :=
  populate (mkBlock EmptyString 0 None None None).

(** One entry of [self.memory_pools]. *)
Record Pool := mkPool {
  available : list ref;
  allocated : list ref;
  total_blocks : Z;
  used_blocks : Z
}.

(** One entry of [self.allocation_history]. *)
Record AllocationRecord := mkRecord {
  r_block_id : string;
  r_size : Z;
  r_allocated_at : option Q;
  r_priority : string
}.

(** The attributes of [MemoryManager]; the four keys of [memory_stats]
    are flattened into the record. [fragmentation_map] is never read or
    written after [__init__] and is left out. *)
Record MemoryManager := mkManager {
  memory_pools : list (Z * Pool);
  allocation_history : list AllocationRecord;
  total_allocations : Z;
  total_deallocations : Z;
  peak_usage : Z;
  current_fragmentation : Q;
  cache_hits : Z;
  cache_misses : Z;
  memory_pressure : Q;
  last_gc_time : Q;
  gc_threshold : Q;
  fragmentation_threshold : Q;
  memory_pressure_threshold : Q
}.

Record World := mkWorld {
  heap : list Block;
  manager : MemoryManager;
  clock : nat → Q;
  clock_reads : nat;
  entropy : nat → Z;
  entropy_reads : nat
}.

(** Field updates. *)
Definition set_pools (f : list (Z * Pool) → list (Z * Pool)) (m : MemoryManager) :=
  mkManager (f (memory_pools m)) (allocation_history m) (total_allocations m)
    (total_deallocations m) (peak_usage m) (current_fragmentation m)
    (cache_hits m) (cache_misses m) (memory_pressure m) (last_gc_time m)
    (gc_threshold m) (fragmentation_threshold m) (memory_pressure_threshold m).

Definition set_history (f : list AllocationRecord → list AllocationRecord) (m : MemoryManager) :=
  mkManager (memory_pools m) (f (allocation_history m)) (total_allocations m)
    (total_deallocations m) (peak_usage m) (current_fragmentation m)
    (cache_hits m) (cache_misses m) (memory_pressure m) (last_gc_time m)
    (gc_threshold m) (fragmentation_threshold m) (memory_pressure_threshold m).

Definition set_total_allocations (f : Z → Z) (m : MemoryManager) :=
  mkManager (memory_pools m) (allocation_history m) (f (total_allocations m))
    (total_deallocations m) (peak_usage m) (current_fragmentation m)
    (cache_hits m) (cache_misses m) (memory_pressure m) (last_gc_time m)
    (gc_threshold m) (fragmentation_threshold m) (memory_pressure_threshold m).

Definition set_total_deallocations (f : Z → Z) (m : MemoryManager) :=
  mkManager (memory_pools m) (allocation_history m) (total_allocations m)
    (f (total_deallocations m)) (peak_usage m) (current_fragmentation m)
    (cache_hits m) (cache_misses m) (memory_pressure m) (last_gc_time m)
    (gc_threshold m) (fragmentation_threshold m) (memory_pressure_threshold m).

Definition set_current_fragmentation (x : Q) (m : MemoryManager) :=
  mkManager (memory_pools m) (allocation_history m) (total_allocations m)
    (total_deallocations m) (peak_usage m) x
    (cache_hits m) (cache_misses m) (memory_pressure m) (last_gc_time m)
    (gc_threshold m) (fragmentation_threshold m) (memory_pressure_threshold m).

Definition set_memory_pressure (x : Q) (m : MemoryManager) :=
  mkManager (memory_pools m) (allocation_history m) (total_allocations m)
    (total_deallocations m) (peak_usage m) (current_fragmentation m)
    (cache_hits m) (cache_misses m) x (last_gc_time m)
    (gc_threshold m) (fragmentation_threshold m) (memory_pressure_threshold m).

Definition set_last_gc_time (x : Q) (m : MemoryManager) :=
  mkManager (memory_pools m) (allocation_history m) (total_allocations m)
    (total_deallocations m) (peak_usage m) (current_fragmentation m)
    (cache_hits m) (cache_misses m) (memory_pressure m) x
    (gc_threshold m) (fragmentation_threshold m) (memory_pressure_threshold m).

Definition set_heap (f : list Block → list Block) (w : World) :=
  mkWorld (f (heap w)) (manager w) (clock w) (clock_reads w) (entropy w) (entropy_reads w).

Definition set_manager (f : MemoryManager → MemoryManager) (w : World) :=
  mkWorld (heap w) (f (manager w)) (clock w) (clock_reads w) (entropy w) (entropy_reads w).

(** ** Python dictionaries with integer keys

    An association list in insertion order, read and written by key
    only; the first entry of a key is the entry of that key. *)
Fixpoint dict_get {V} (k : Z) (d : list (Z * V)) : option V :=
  match d with
  | [] => None
  | (k', v) :: d' => if k =? k' then Some v else dict_get k d'
  end.

Fixpoint dict_set {V} (k : Z) (v : V) (d : list (Z * V)) : list (Z * V) :=
  match d with
  | [] => [(k, v)]
  | (k', v') :: d' => if k =? k' then (k, v) :: d' else (k', v') :: dict_set k v d'
  end.

Definition dict_keys {V} (d : list (Z * V)) : list Z := d.*1.

(** [sorted(d.keys())] *)
Definition sorted_keys {V} (d : list (Z * V)) : list Z := merge_sort Z.le (dict_keys d).

(** [l.pop()]: the last element and the list without it. *)
Fixpoint list_pop {A} (l : list A) : option (A * list A) :=
  match l with
  | [] => None
  | x :: l' =>
      match list_pop l' with
      | None => Some (x, [])
      | Some (y, r) => Some (y, x :: r)
      end
  end.

(** Truth value of a list and of an optional string in a condition. *)
Definition nonempty {A} (l : list A) : bool :=
  match l with [] => false | _ :: _ => true end.

Definition truthy (o : option string) : bool :=
  match o with
  | None => false
  | Some EmptyString => false
  | Some (String _ _) => true
  end.

(** ** The monad of methods: state and exceptions *)

Inductive Outcome (A : Type) : Type :=
  | Return (a : A)
  | Raise (exn : string).
Arguments Return {A} a.
Arguments Raise {A} exn.

Definition M (A : Type) : Type := World → Outcome A * World.

Global Instance M_ret : MRet M := λ A a w, (Return a, w).

Global Instance M_bind : MBind M := λ A B f m w,
  match m w with
  | (Return a, w') => f a w'
  | (Raise e, w') => (Raise e, w')
  end.

Definition raise {A} (e : string) : M A := λ w, (Raise e, w).

(** [try: body except Exception as e: handler e] *)
Definition try_except {A} (body : M A) (handler : string → M A) : M A := λ w,
  match body w with
  | (Return a, w') => (Return a, w')
  | (Raise e, w') => handler e w'
  end.

Definition gets {A} (f : World → A) : M A := λ w, (Return (f w), w).
Definition modify (f : World → World) : M unit := λ w, (Return tt, f w).

(** [for x in xs: body x], and the same loop threading a local variable. *)
Fixpoint for_each {A} (xs : list A) (body : A → M unit) : M unit :=
  match xs with
  | [] => mret tt
  | x :: xs' => body x ;; for_each xs' body
  end.

Fixpoint for_acc {A S} (xs : list A) (body : S → A → M S) (acc : S) : M S :=
  match xs with
  | [] => mret acc
  | x :: xs' => acc' ← body acc x; for_acc xs' body acc'
  end.

(** [for _ in range(n): body] *)
Fixpoint repeat_loop (n : nat) (body : M unit) : M unit :=
  match n with
  | O => mret tt
  | S n' => body ;; repeat_loop n' body
  end.

(** *** Primitive effects *)

(** [time.time()] *)
Definition time_time : M Q := λ w,
  (Return (clock w (clock_reads w)),
   mkWorld (heap w) (manager w) (clock w) (S (clock_reads w)) (entropy w) (entropy_reads w)).

(** [random.randint(a, b)]: a value of [a..b] decided by the next reading
    of the entropy source. *)
Definition random_randint (a b : Z) : M Z := λ w,
  (Return (a + entropy w (entropy_reads w) `mod` (b - a + 1)),
   mkWorld (heap w) (manager w) (clock w) (clock_reads w) (entropy w) (S (entropy_reads w))).

(** Creation of a dictionary object: a fresh reference. *)
Definition new_object (b : Block) : M ref := λ w,
  (Return (length (heap w)), set_heap (λ h, h ++ [b]) w).

(** Reading and writing through a reference. *)
Definition deref (r : ref) : M Block := gets (λ w, heap w !!! r).
Definition assign (r : ref) (f : Block → Block) : M unit :=
  modify (set_heap (alter f r)).

(** [self.memory_pools[k]] *)
Definition getitem (k : Z) : M Pool := λ w,
  match dict_get k (memory_pools (manager w)) with
  | Some p => (Return p, w)
  | None => (Raise ("KeyError: " +:+ pretty k), w)
  end.

(** In-place update of the pool object [self.memory_pools[k]]. *)
Definition update_pool (k : Z) (f : Pool → Pool) : M unit :=
  p ← getitem k;
  modify (set_manager (set_pools (dict_set k (f p)))).

Definition set_available (f : list ref → list ref) (p : Pool) : Pool :=
  mkPool (f (available p)) (allocated p) (total_blocks p) (used_blocks p).
Definition set_allocated (f : list ref → list ref) (p : Pool) : Pool :=
  mkPool (available p) (f (allocated p)) (total_blocks p) (used_blocks p).
Definition set_used_blocks (f : Z → Z) (p : Pool) : Pool :=
  mkPool (available p) (allocated p) (total_blocks p) (f (used_blocks p)).

Definition set_allocated_at (t : option Q) (b : Block) : Block :=
  mkBlock (b_id b) (b_size b) t (b_last_access b) (b_priority b).
Definition set_last_access (t : option Q) (b : Block) : Block :=
  mkBlock (b_id b) (b_size b) (b_allocated_at b) t (b_priority b).
Definition set_priority (s : string) (b : Block) : Block :=
  mkBlock (b_id b) (b_size b) (b_allocated_at b) (b_last_access b) (Some s).

(** Comparison of floats: [x > y]. *)
Definition Qgt_bool (x y : Q) : bool := negb (Qle_bool x y).

(** ** [MemoryManager.__init__] and [_initialize_memory_pools] *)

Definition pool_sizes : list Z := [1; 2; 4; 8; 16; 32; 64; 128; 256; 512].

(** [50 if size <= 16 else 25 if size <= 64 else 10] *)
Definition block_count (size : Z) : Z :=
  if size <=? 16 then 50 else if size <=? 64 then 25 else 10.

(** [f"block_{size}_{n}"] *)
Definition block_name (size n : Z) : string :=
  "block_" +:+ pretty size +:+ "_" +:+ pretty n.

(** One round of the pre-allocation loop. *)
Definition preallocate (size : Z) : M unit :=
  _ ← getitem size;
  n ← random_randint 1000 9999;
  block ← new_object (mkBlock (block_name size n) size None None None);
  update_pool size (set_available (λ l, l ++ [block])).

(** [_initialize_memory_pools], with the ladder of sizes and the number
    of blocks per size as arguments. *)
Definition initialize_memory_pools_with (sizes : list Z) (count : Z → Z) : M unit :=
  for_each sizes (λ size,
    modify (set_manager (set_pools (dict_set size (mkPool [] [] (count size) 0)))) ;;
    repeat_loop (Z.to_nat (count size)) (preallocate size)).

Definition _initialize_memory_pools : M unit :=
  initialize_memory_pools_with pool_sizes block_count.

(** The attributes assigned by [__init__] before the pools are built. *)
Definition fresh_manager (now : Q) : MemoryManager :=
  mkManager [] [] 0 0 0 0%Q 0 0 0%Q now (7 # 10)%Q 15%Q (8 # 10)%Q.

Definition init_with (sizes : list Z) (count : Z → Z) : M unit :=
  now ← time_time;
  modify (set_manager (λ _, fresh_manager now)) ;;
  initialize_memory_pools_with sizes count.

Definition MemoryManager_init : M unit := init_with pool_sizes block_count.

(** The world before the module is imported: no object, both oracles
    unread. *)
Definition blank (clk : nat → Q) (ent : nat → Z) : World :=
  mkWorld [] (fresh_manager 0%Q) clk 0 ent 0.

(** The world after [memory_manager = MemoryManager()]. *)
Definition boot_with (sizes : list Z) (count : Z → Z) (clk : nat → Q) (ent : nat → Z) : World :=
  (init_with sizes count (blank clk ent)).2.

Definition boot (clk : nat → Q) (ent : nat → Z) : World :=
  (MemoryManager_init (blank clk ent)).2.

(** ** [allocate_memory] *)

(** The search loop: the first key of [keys] that is large enough and
    whose pool has an available block. *)
Fixpoint find_pool (size : Z) (keys : list Z) : M (option Z) :=
  match keys with
  | [] => mret None
  | pool_size :: rest =>
      if size <=? pool_size then
        pool ← getitem pool_size;
        if nonempty (available pool) then mret (Some pool_size)
        else find_pool size rest
      else find_pool size rest
  end.

Definition allocate_body (size : Z) (priority : string) : M (option string) :=
  keys ← gets (λ w, sorted_keys (memory_pools (manager w)));
  best ← find_pool size keys;
  match best with
  | None => mret None
  | Some best_pool_size =>
      pool ← getitem best_pool_size;
      match list_pop (available pool) with
      | None => raise "IndexError: pop from empty list"
      | Some (block, rest) =>
          update_pool best_pool_size (set_available (λ _, rest)) ;;
          t1 ← time_time;
          assign block (set_allocated_at (Some t1)) ;;
          t2 ← time_time;
          assign block (set_last_access (Some t2)) ;;
          assign block (set_priority priority) ;;
          update_pool best_pool_size (set_allocated (λ l, l ++ [block])) ;;
          update_pool best_pool_size (set_used_blocks (λ n, n + 1)) ;;
          b ← deref block;
          modify (set_manager (set_history (λ h,
            h ++ [mkRecord (b_id b) size (b_allocated_at b) priority]))) ;;
          modify (set_manager (set_total_allocations (λ n, n + 1))) ;;
          mret (Some (b_id b))
      end
  end.

Definition allocate_memory (size : Z) (priority : string) : M (option string) :=
  try_except (allocate_body size priority)
    (λ e, raise ("Memory allocation failed: " +:+ e)).

(** ** [deallocate_memory] *)

(** The scan over the pools, in the order of the dictionary; in each pool
    the first allocated block that carries the identifier. *)
Fixpoint deallocate_scan (block_id : string) (keys : list Z) : M bool :=
  match keys with
  | [] => mret false
  | pool_size :: rest =>
      pool ← getitem pool_size;
      h ← gets heap;
      match list_find (λ r, b_id (h !!! r) = block_id) (allocated pool) with
      | Some (i, block) =>
          assign block (set_allocated_at None) ;;
          assign block (set_last_access None) ;;
          update_pool pool_size (set_available (λ l, l ++ [block])) ;;
          update_pool pool_size (set_allocated (delete i)) ;;
          update_pool pool_size (set_used_blocks (λ n, n - 1)) ;;
          modify (set_manager (set_total_deallocations (λ n, n + 1))) ;;
          mret true
      | None => deallocate_scan block_id rest
      end
  end.

Definition deallocate_body (block_id : string) : M bool :=
  keys ← gets (λ w, dict_keys (memory_pools (manager w)));
  deallocate_scan block_id keys.

Definition deallocate_memory (block_id : string) : M bool :=
  try_except (deallocate_body block_id)
    (λ e, raise ("Memory deallocation failed: " +:+ e)).

(** ** [_defragment_memory] *)

(** The loop over [sorted(self.memory_pools.keys())] for one block; the
    result is the increment of [defragmented_blocks]. *)
Fixpoint migrate (pool_size : Z) (block : ref) (keys : list Z) : M Z :=
  match keys with
  | [] => mret 0
  | smaller_size :: rest =>
      b ← deref block;
      if (smaller_size <? pool_size) && (b_size b <=? smaller_size) then
        smaller ← getitem smaller_size;
        if nonempty (available smaller) then
          freed ← deallocate_memory (b_id b);
          if freed : bool then
            b' ← deref block;
            new_block_id ← allocate_memory (b_size b') "high";
            mret (if truthy new_block_id then 1 else 0)
          else migrate pool_size block rest
        else migrate pool_size block rest
      else migrate pool_size block rest
  end.

(** The body of the loop over [pool['allocated'][:]]. The test
    [block['size'] < pool_size * 0.5] compares an integer with half an
    integer: it holds when twice the size is below the pool size. *)
Definition defragment_block (pool_size : Z) (count : Z) (block : ref) : M Z :=
  b ← deref block;
  if 2 * b_size b <? pool_size then
    keys ← gets (λ w, sorted_keys (memory_pools (manager w)));
    moved ← migrate pool_size block keys;
    mret (count + moved)
  else mret count.

Definition defragment_pool (count : Z) (pool_size : Z) : M Z :=
  pool ← getitem pool_size;
  for_acc (allocated pool) (defragment_block pool_size) count.

Definition _defragment_memory : M Z :=
  try_except
    (keys ← gets (λ w, dict_keys (memory_pools (manager w)));
     for_acc keys defragment_pool 0)
    (λ _, mret 0).

(** ** [garbage_collect] *)

(** [180 if pool_size <= 512 else 300] *)
Definition gc_timeout (pool_size : Z) : Q :=
  if pool_size <=? 512 then 180%Q else 300%Q.

Definition collect_block (pool_size : Z) (current_time : Q) (collected : Z) (block : ref) : M Z :=
  b ← deref block;
  match b_last_access b with
  | None => raise "TypeError: unsupported operand type(s) for -: 'float' and 'NoneType'"
  | Some last =>
      if Qgt_bool (current_time - last) (gc_timeout pool_size) then
        freed ← deallocate_memory (b_id b);
        mret (if freed : bool then collected + 1 else collected)
      else mret collected
  end.

Definition collect_pool (collected : Z) (pool_size : Z) : M Z :=
  pool ← getitem pool_size;
  current_time ← time_time;
  for_acc (allocated pool) (collect_block pool_size current_time) collected.

Record GcReport := mkGcReport {
  collected_blocks : Z;
  gc_time : Q;
  memory_freed : string;
  defragmentation_performed : bool
}.

Definition garbage_collect : M GcReport :=
  try_except
    (start_time ← time_time;
     keys ← gets (λ w, dict_keys (memory_pools (manager w)));
     collected ← for_acc keys collect_pool 0;
     m ← gets manager;
     collected ← (if Qgt_bool (memory_pressure m) (gc_threshold m)
                   then moved ← _defragment_memory; mret (collected + moved)
                   else mret collected);
     now ← time_time;
     modify (set_manager (set_last_gc_time now)) ;;
     finish ← time_time;
     m ← gets manager;
     mret (mkGcReport collected (finish - start_time)
             (pretty (collected * 1024) +:+ " KB")
             (Qgt_bool (memory_pressure m) (gc_threshold m))))
    (λ e, raise ("Garbage collection failed: " +:+ e)).

(** ** [_update_memory_stats] and [get_memory_info] *)

(** [_calculate_fragmentation]: every path of the method, the handler
    included, returns 5.0. *)
Definition _calculate_fragmentation : M Q := mret 5%Q.

(** [_update_cache_stats]: reads a file at most and changes nothing. *)
Definition _update_cache_stats : M unit := mret tt.

(** [used_mb / total_mb] *)
Definition true_div (x y : Z) : M Q :=
  if y =? 0 then raise "ZeroDivisionError: division by zero"
  else mret (inject_Z x / inject_Z y)%Q.

Definition _update_memory_stats (used_mb total_mb : Z) : M unit :=
  fragmentation ← _calculate_fragmentation;
  modify (set_manager (set_current_fragmentation fragmentation)) ;;
  usage_ratio ← true_div used_mb total_mb;
  (if Qgt_bool usage_ratio (9 # 10) then
     modify (set_manager (set_memory_pressure (9 # 10)%Q))
   else if Qgt_bool usage_ratio (7 # 10) then
     modify (set_manager (set_memory_pressure (7 # 10)%Q))
   else
     modify (set_manager (set_memory_pressure usage_ratio))) ;;
  _update_cache_stats.

Record MemoryInfo := mkMemoryInfo {
  info_total : string;
  info_used : string;
  info_free : string;
  info_usage : Q;
  info_fragmentation : Q;
  info_cache_hit_rate : Q;
  info_memory_pressure : Q;
  info_last_gc : Q
}.

Definition get_memory_info : M MemoryInfo :=
  try_except
    (let total_mb := 16 in
     used_mb ← random_randint 4 8;
     ratio ← true_div used_mb total_mb;
     let usage_percent := (ratio * 100)%Q in
     _update_memory_stats used_mb total_mb ;;
     m ← gets manager;
     hit_rate ← (if 0 <? cache_hits m + cache_misses m
                 then r ← true_div (cache_hits m) (cache_hits m + cache_misses m);
                      mret (r * 100)%Q
                 else mret 0%Q);
     mret (mkMemoryInfo (pretty total_mb +:+ " MB") (pretty used_mb +:+ " MB")
             (pretty (total_mb - used_mb) +:+ " MB") usage_percent
             (current_fragmentation m) hit_rate (memory_pressure m) (last_gc_time m)))
    (λ e, raise ("Failed to get memory info: " +:+ e)).

(** ** [get_memory_map] *)

Record MapEntry := mkMapEntry {
  map_total_blocks : Z;
  map_used_blocks : Z;
  map_free_blocks : Z;
  map_utilization : Q
}.

Definition map_entry (acc : list (string * MapEntry)) (pool_size : Z) : M (list (string * MapEntry)) :=
  pool ← getitem pool_size;
  ratio ← true_div (used_blocks pool) (total_blocks pool);
  mret (acc ++ [(pretty pool_size +:+ "KB",
                 mkMapEntry (total_blocks pool) (used_blocks pool)
                   (Z.of_nat (length (available pool))) (ratio * 100)%Q)]).

Definition get_memory_map : M (list (string * MapEntry)) :=
  keys ← gets (λ w, dict_keys (memory_pools (manager w)));
  for_acc keys map_entry [].

(** ** [get_memory_analytics] *)

(** [l[-n:]] for a positive [n] *)
Definition last_n {A} (n : nat) (l : list A) : list A := drop (length l - n) l.

(** [f"{(size // 1024) * 1024}-{((size // 1024) + 1) * 1024}KB"] *)
Definition size_range (size : Z) : string :=
  pretty (size `div` 1024 * 1024) +:+ "-" +:+ pretty ((size `div` 1024 + 1) * 1024) +:+ "KB".

Definition count_pattern (patterns : gmap string Z) (record : AllocationRecord) : gmap string Z :=
  <[size_range (r_size record) := default 0 (patterns !! size_range (r_size record)) + 1]> patterns.

Record Analytics := mkAnalytics {
  allocation_patterns : gmap string Z;
  predicted_usage : Q;
  fragmentation_trend : string;
  memory_efficiency : Q;
  gc_recommendation : string
}.

Definition get_memory_analytics : M Analytics :=
  try_except
    (m ← gets manager;
     let patterns := foldl count_pattern ∅ (last_n 100 (allocation_history m)) in
     let predicted :=
       if (10 <? length (allocation_history m))%nat then
         let recent_usage := foldr Z.add 0 (r_size <$> last_n 10 (allocation_history m)) in
         let avg_usage := (inject_Z recent_usage / 10)%Q in
         (avg_usage * (12 # 10))%Q
       else 0%Q in
     mret (mkAnalytics patterns predicted
             (if Qgt_bool 15 (current_fragmentation m) then "Stable" else "Increasing")
             (100 - current_fragmentation m)%Q
             (if Qgt_bool (memory_pressure m) (7 # 10) then "Run GC" else "OK")))
    (λ e, raise ("Memory analytics failed: " +:+ e)).

(** ** Calls of the public interface and runs *)

Inductive Call :=
  | CallAllocate (size : Z) (priority : string)
  | CallDeallocate (block_id : string)
  | CallGarbageCollect
  | CallDefragment
  | CallGetMemoryInfo
  | CallUpdateStats (used_mb total_mb : Z)
  | CallGetMemoryMap
  | CallGetMemoryAnalytics.

(** The world after a call, whether it returned or raised. *)
Definition exec (w : World) (c : Call) : World :=
  match c with
  | CallAllocate size priority => (allocate_memory size priority w).2
  | CallDeallocate block_id => (deallocate_memory block_id w).2
  | CallGarbageCollect => (garbage_collect w).2
  | CallDefragment => (_defragment_memory w).2
  | CallGetMemoryInfo => (get_memory_info w).2
  | CallUpdateStats used_mb total_mb => (_update_memory_stats used_mb total_mb w).2
  | CallGetMemoryMap => (get_memory_map w).2
  | CallGetMemoryAnalytics => (get_memory_analytics w).2
  end.

Definition run (w : World) (calls : list Call) : World := foldl exec w calls.

(** The worlds that a program reaches from the import of the module. *)
Definition reachable (w : World) : Prop :=
  ∃ clk ent calls, w = run (boot clk ent) calls.

(** ** Vocabulary of the statements *)

(** The pool of a size class in a world. *)
Definition pool_of (w : World) (k : Z) : option Pool :=
  dict_get k (memory_pools (manager w)).

(** The size class [k] can serve a request of [size]: it is large enough
    and has an available block. *)
Definition fits (w : World) (size k : Z) : Prop :=
  ∃ p, pool_of w k = Some p ∧ size ≤ k ∧ available p ≠ [].

(** [k] is the smallest size class that can serve the request. *)
Definition best_fit (w : World) (size k : Z) : Prop :=
  fits w size k ∧ ∀ k', fits w size k' → k ≤ k'.

(** The search of [allocate_memory] as a function of the pools. *)
Fixpoint best_pool (size : Z) (pools : list (Z * Pool)) (keys : list Z) : option Z :=
  match keys with
  | [] => None
  | k :: rest =>
      if size <=? k then
        match dict_get k pools with
        | Some p => if nonempty (available p) then Some k else best_pool size pools rest
        | None => None
        end
      else best_pool size pools rest
  end.

(** The world after a successful allocation of the block [r], the last
    available block of the pool [p] of class [k]. *)
Definition allocated_world (w : World) (size : Z) (priority : string)
    (k : Z) (p : Pool) (r : ref) (rest : list ref) : World :=
  let t1 := clock w (clock_reads w) in
  let t2 := clock w (S (clock_reads w)) in
  let h := alter (set_priority priority) r
             (alter (set_last_access (Some t2)) r
                (alter (set_allocated_at (Some t1)) r (heap w))) in
  let b := h !!! r in
  mkWorld h
    (set_total_allocations (λ n, n + 1)
       (set_history (λ l, l ++ [mkRecord (b_id b) size (b_allocated_at b) priority])
          (set_pools
             (dict_set k (mkPool rest (allocated p ++ [r]) (total_blocks p) (used_blocks p + 1)))
             (manager w))))
    (clock w) (S (S (clock_reads w))) (entropy w) (entropy_reads w).

(** The scan of [deallocate_memory] as a function of the world: the
    class, the pool, the position and the reference of the block freed. *)
Fixpoint locate (block_id : string) (h : list Block) (pools : list (Z * Pool))
    (keys : list Z) : option (Z * Pool * nat * ref) :=
  match keys with
  | [] => None
  | k :: rest =>
      match dict_get k pools with
      | None => None
      | Some p =>
          match list_find (λ r, b_id (h !!! r) = block_id) (allocated p) with
          | Some (i, r) => Some (k, p, i, r)
          | None => locate block_id h pools rest
          end
      end
  end.

(** The world after the block [r], at position [i] of the allocated list
    of the pool [p] of class [k], was freed. *)
Definition deallocated_world (w : World) (k : Z) (p : Pool) (i : nat) (r : ref) : World :=
  mkWorld
    (alter (set_last_access None) r (alter (set_allocated_at None) r (heap w)))
    (set_total_deallocations (λ n, n + 1)
       (set_pools
          (dict_set k (mkPool (available p ++ [r]) (delete i (allocated p))
                         (total_blocks p) (used_blocks p - 1)))
          (manager w)))
    (clock w) (clock_reads w) (entropy w) (entropy_reads w).

(** Some pool holds an allocated block that carries the identifier. *)
Definition is_allocated (w : World) (block_id : string) : Prop :=
  ∃ k p r, pool_of w k = Some p ∧ r ∈ allocated p ∧ b_id (heap w !!! r) = block_id.

(** The counts of the pool of the class [k] agree with its lists, and its
    capacity is the one fixed by [_initialize_memory_pools]. *)
Definition pool_ok (k : Z) (p : Pool) : Prop :=
  Z.of_nat (length (available p)) + Z.of_nat (length (allocated p)) = total_blocks p
  ∧ used_blocks p = Z.of_nat (length (allocated p))
  ∧ total_blocks p = block_count k.

(** The size classes are those of the ladder, and every pool is in
    order. *)
Definition pools_ok (w : World) : Prop :=
  dict_keys (memory_pools (manager w)) = pool_sizes
  ∧ Forall (λ kp, pool_ok kp.1 kp.2) (memory_pools (manager w)).

(** A method keeps a property of the world, whether it returns or
    raises. *)
Definition preserves {A} (P : World → Prop) (m : M A) : Prop :=
  ∀ w, P w → P (m w).2.

(** An update of the manager that leaves the pools alone. *)
Definition pools_frame (f : MemoryManager → MemoryManager) : Prop :=
  ∀ m, memory_pools (f m) = memory_pools m.

(** The pools right after [__init__]: the references are handed out in
    the order of creation. *)
Definition boot_pools : list (Z * Pool) :=
  [(1, mkPool (seq 0 50) [] 50 0); (2, mkPool (seq 50 50) [] 50 0);
   (4, mkPool (seq 100 50) [] 50 0); (8, mkPool (seq 150 50) [] 50 0);
   (16, mkPool (seq 200 50) [] 50 0); (32, mkPool (seq 250 25) [] 25 0);
   (64, mkPool (seq 275 25) [] 25 0); (128, mkPool (seq 300 10) [] 10 0);
   (256, mkPool (seq 310 10) [] 10 0); (512, mkPool (seq 320 10) [] 10 0)].

(** The row of [get_memory_map] for one pool, with the counts read off the
    lists of the pool. *)
Definition map_row (kp : Z * Pool) : string * MapEntry :=
  (pretty kp.1 +:+ "KB",
   mkMapEntry (total_blocks kp.2) (Z.of_nat (length (allocated kp.2)))
     (Z.of_nat (length (available kp.2)))
     (inject_Z (Z.of_nat (length (allocated kp.2))) / inject_Z (total_blocks kp.2) * 100)%Q).

(** The entropy source and the clock of the examples: the draws are all
    different, and a second passes between two readings of the clock. *)
Definition demo_entropy (n : nat) : Z := Z.of_nat n.
Definition demo_clock (n : nat) : Q := inject_Z (Z.of_nat n).

(** A short session: two allocations, a request that nothing can serve, a
    deallocation, a garbage collection and a defragmentation. *)
Definition demo_world : World :=
  run (boot demo_clock demo_entropy)
    [CallAllocate 1 "normal"; CallAllocate 3 "high"; CallAllocate 600 "low";
     CallDeallocate "block_1_1049"; CallGarbageCollect; CallDefragment].

(** The stepped clamp in the words of the specification: 0.9 above 0.9,
    0.7 above 0.7 and up to 0.9, the ratio itself otherwise. *)
Definition stepped_pressure (r : Q) : Q :=
  if Qgt_bool r (9 # 10) then (9 # 10)%Q
  else if Qgt_bool r (7 # 10) then (7 # 10)%Q
  else r.




(** All references held by the pools, and the identifiers they carry. *)
Definition refs_of (pools : list (Z * Pool)) : list ref :=
  pools ≫= λ kp, available kp.2 ++ allocated kp.2.

Definition all_ids (w : World) : list string :=
  (λ r, b_id (heap w !!! r)) <$> refs_of (memory_pools (manager w)).

(** An entropy source whose second draw repeats the first. *)
Definition colliding_entropy (n : nat) : Z :=
  if (n =? 1)%nat then 0 else Z.of_nat n.

(** A session that leaves a block requested for 1 KB in the 4KB class
    while the 1KB class has an available block: 101 allocations of size 1
    fill the classes of 1 and 2 KB and take one block of 4 KB, then a
    block of 1 KB is given back. *)
Definition oversized_world : World :=
  run (boot demo_clock demo_entropy)
    (replicate 101 (CallAllocate 1 "normal") ++ [CallDeallocate "block_1_1049"]).

(** Three allocations after the import: three entries in the ledger. *)
Definition three_entries_world : World :=
  run (boot demo_clock demo_entropy)
    [CallAllocate 1 "normal"; CallAllocate 2 "normal"; CallAllocate 3 "normal"].

(** A clock that never steps back. *)
Definition nondecreasing (clk : nat → Q) : Prop := ∀ n, (clk n <= clk (S n))%Q.

(** The values of ['last_access'] along a list of references. *)
Definition stamps (h : list Block) (l : list ref) : list (option Q) :=
  (λ r, b_last_access (h !!! r)) <$> l.

(** The pool of the class [kp.1] is well formed in the store [h]: no
    reference occurs twice in its lists; every reference is a block of the
    store that was created for this class; the allocated blocks carry
    their times of last access in ascending order, none later than
    [bound]. *)
Definition pool_wf (h : list Block) (bound : Q) (kp : Z * Pool) : Prop :=
  NoDup (available kp.2 ++ allocated kp.2)
  ∧ Forall (λ r, (r < length h)%nat ∧ b_size (h !!! r) = kp.1
                 ∧ ∃ n, b_id (h !!! r) = block_name kp.1 n)
      (available kp.2 ++ allocated kp.2)
  ∧ ∃ ts, stamps h (allocated kp.2) = Some <$> ts
          ∧ StronglySorted Qle ts ∧ Forall (λ t, (t <= bound)%Q) ts.

(** The worlds of a program whose clock never steps back. *)
Definition wf (w : World) : Prop :=
  nondecreasing (clock w)
  ∧ dict_keys (memory_pools (manager w)) = pool_sizes
  ∧ Forall (pool_wf (heap w) (clock w (clock_reads w))) (memory_pools (manager w)).

(** The size class of every block in the order of creation, and the store
    right after [__init__]. *)
Definition boot_classes : list Z :=
  pool_sizes ≫= λ k, replicate (Z.to_nat (block_count k)) k.

Definition boot_heap (ent : nat → Z) : list Block :=
  imap (λ i k, mkBlock (block_name k (1000 + ent i `mod` (9999 - 1000 + 1))) k None None None)
    boot_classes.

(** The part of an identifier that names the size class, and a test that
    two strings differ at a position that both have. *)
Definition class_tag (k : Z) : string := "block_" +:+ pretty k +:+ "_".

Fixpoint clash (a b : string) : bool :=
  match a, b with
  | String x a', String y b' => if Ascii.eqb x y then clash a' b' else true
  | _, _ => false
  end.

(** The test of the garbage collector on one block: the block was not
    accessed for longer than the timeout of its class. *)
Definition idle (h : list Block) (k : Z) (now : Q) (r : ref) : bool :=
  match b_last_access (h !!! r) with
  | Some last => Qgt_bool (now - last) (gc_timeout k)
  | None => false
  end.

(** The allocated blocks of the class [k] that are idle at [now]. *)
Definition idle_refs (w : World) (k : Z) (now : Q) : list ref :=
  match pool_of w k with
  | Some p => filter (λ r, idle (heap w) k now r = true) (allocated p)
  | None => []
  end.

(** From [w] to [w'] the class [k] was swept at the time [now]: its idle
    blocks left the allocated list, in their order, for the end of the
    available list, and lost their timestamps; its other allocated blocks
    stayed, in their order, and are unchanged. *)
Definition swept (w w' : World) (k : Z) (now : Q) : Prop :=
  ∃ p p',
    pool_of w k = Some p ∧ pool_of w' k = Some p' ∧
    allocated p' = filter (λ r, idle (heap w) k now r ≠ true) (allocated p) ∧
    available p' = available p ++ filter (λ r, idle (heap w) k now r = true) (allocated p) ∧
    (∀ r, r ∈ allocated p → idle (heap w) k now r = true →
          r ∈ available p' ∧ (r ∉ allocated p') ∧
          b_allocated_at (heap w' !!! r) = None ∧ b_last_access (heap w' !!! r) = None) ∧
    (∀ r, r ∈ allocated p → idle (heap w) k now r ≠ true →
          r ∈ allocated p' ∧ (r ∉ available p') ∧ heap w' !!! r = heap w !!! r).

(** The number of blocks that a cycle reclaims when it reads the clock for
    the classes [ks] from the reading number [n] on. *)
Fixpoint reclaimed (w : World) (n : nat) (ks : list Z) : Z :=
  match ks with
  | [] => 0
  | k :: ks' => Z.of_nat (length (idle_refs w k (clock w n))) + reclaimed w (S n) ks'
  end.

(** What a sweep leaves alone besides the pools of the other classes: the
    clock and its counter, the pressure and the threshold of the
    defragmentation. *)
Definition gauges (w : World) : (nat → Q) * nat * Q * Q :=
  (clock w, clock_reads w, memory_pressure (manager w), gc_threshold (manager w)).

(** From [w] to [w'] the class [k] was left alone: its pool and the
    blocks of its pool are the same. *)
Definition untouched (w w' : World) (k : Z) : Prop :=
  pool_of w' k = pool_of w k
  ∧ ∀ p r, pool_of w k = Some p → r ∈ available p ++ allocated p →
           heap w' !!! r = heap w !!! r.

(** A clock that advances by a minute at every reading, and a session
    under it: two allocations in the 1KB class, one minute apart. *)
Definition minute_clock (n : nat) : Q := inject_Z (60 * Z.of_nat n).

Definition two_blocks_world : World :=
  run (boot minute_clock demo_entropy) [CallAllocate 1 "normal"; CallAllocate 1 "normal"].

(** ** Vocabulary of the further properties *)

(** The pool [kp.2] of the class [kp.1] holds, in some order, the
    references that [__init__] put into the pool of that class. *)
Definition pool_conserved (kp : Z * Pool) : Prop :=
  ∃ p0, dict_get kp.1 boot_pools = Some p0
        ∧ available kp.2 ++ allocated kp.2 ≡ₚ available p0.

(** The blocks of [w] are those created by [__init__]: the store has the
    same length and every block the identifier and the size it was
    created with, and every pool holds the references it was given. *)
Definition conserved (w : World) : Prop :=
  dict_keys (memory_pools (manager w)) = pool_sizes
  ∧ length (heap w) = length (boot_heap (entropy w))
  ∧ (∀ r, b_id (heap w !!! r) = b_id (boot_heap (entropy w) !!! r)
          ∧ b_size (heap w !!! r) = b_size (boot_heap (entropy w) !!! r))
  ∧ Forall pool_conserved (memory_pools (manager w)).

(** The number of megabytes that [get_memory_info] draws in [w]. *)
Definition drawn_used_mb (w : World) : Z :=
  4 + entropy w (entropy_reads w) `mod` (8 - 4 + 1).

(** The world that [get_memory_info] leaves. *)
Definition info_world (w : World) : World :=
  mkWorld (heap w)
    (set_memory_pressure (inject_Z (drawn_used_mb w) / inject_Z 16)%Q
       (set_current_fragmentation 5%Q (manager w)))
    (clock w) (clock_reads w) (entropy w) (S (entropy_reads w)).


(** The blocks in use as the counters of the pools have them. *)
Definition blocks_in_use (pools : list (Z * Pool)) : Z :=
  foldr Z.add 0 ((λ kp, used_blocks kp.2) <$> pools).

(** The counters of the manager agree with the history and with the
    pools. *)
Definition ledger_ok (w : World) : Prop :=
  total_allocations (manager w) = Z.of_nat (length (allocation_history (manager w)))
  ∧ total_allocations (manager w) - total_deallocations (manager w)
    = blocks_in_use (memory_pools (manager w)).



(** While the collector counts [c] blocks, [total_deallocations] has
    grown by [c]; the allocations and their history are as in [w0]. *)
Definition collecting (w0 : World) (c : Z) (v : World) : Prop :=
  total_deallocations (manager v) = total_deallocations (manager w0) + c
  ∧ total_allocations (manager v) = total_allocations (manager w0)
  ∧ allocation_history (manager v) = allocation_history (manager w0)
  ∧ entropy_reads v = entropy_reads w0
  ∧ last_gc_time (manager v) = last_gc_time (manager w0)
  ∧ memory_pressure (manager v) = memory_pressure (manager w0).

(** The records of [l] whose size falls into the range named [s]. *)
Definition in_range (s : string) (l : list AllocationRecord) : list AllocationRecord :=
  filter (λ r, size_range (r_size r) = s) l.

(** What the history of a reachable world holds: requests that a class
    [k] served, under an identifier of that class, with the time of the
    allocation. *)
Definition record_ok (r : AllocationRecord) : Prop :=
  ∃ k n, k ∈ pool_sizes ∧ r_size r ≤ k ∧ 1000 ≤ n ≤ 9999
         ∧ r_block_id r = block_name k n ∧ is_Some (r_allocated_at r).

(** The history of [w] holds such records only. *)
Definition history_ok (w : World) : Prop :=
  conserved w ∧ Forall record_ok (allocation_history (manager w)).

(** An available block has no timestamp. *)
Definition unstamped (h : list Block) (r : ref) : Prop :=
  b_allocated_at (h !!! r) = None ∧ b_last_access (h !!! r) = None.

(** An allocated block carries two consecutive readings of the clock,
    taken before the present one, and a priority. *)
Definition stamped (w : World) (r : ref) : Prop :=
  ∃ n, (S n < clock_reads w)%nat
       ∧ b_allocated_at (heap w !!! r) = Some (clock w n)
       ∧ b_last_access (heap w !!! r) = Some (clock w (S n))
       ∧ is_Some (b_priority (heap w !!! r)).

(** The blocks of a pool are stamped exactly while they are allocated. *)
Definition pool_stamps (w : World) (kp : Z * Pool) : Prop :=
  Forall (unstamped (heap w)) (available kp.2) ∧ Forall (stamped w) (allocated kp.2).

(** The blocks are those of [__init__], and every pool has its blocks
    stamped as above. *)
Definition stamps_ok (w : World) : Prop :=
  conserved w ∧ Forall (pool_stamps w) (memory_pools (manager w)).

(** * Properties *)

(** ** Dictionaries *)

Section dict.
Context {V : Type}.
Implicit Types (d : list (Z * V)) (k : Z) (v : V).

Lemma dict_get_set_eq d k v : dict_get k (dict_set k v d) = Some v.
Proof.
  induction d as [|[k' v'] d IH]; simpl.
  - by rewrite Z.eqb_refl.
  - destruct (k =? k') eqn:E; simpl; by rewrite ?Z.eqb_refl, ?E.
Qed.

Lemma dict_get_set_ne d k k' v : k ≠ k' → dict_get k' (dict_set k v d) = dict_get k' d.
Proof.
  intros Hne. induction d as [|[k0 v0] d IH]; simpl.
  - destruct (k' =? k) eqn:E; [apply Z.eqb_eq in E; congruence | done].
  - destruct (k =? k0) eqn:E; simpl.
    + apply Z.eqb_eq in E. subst k0.
      destruct (k' =? k) eqn:E'; [apply Z.eqb_eq in E'; congruence | done].
    + by rewrite IH.
Qed.

Lemma dict_get_set d k k' v :
  dict_get k' (dict_set k v d) = if decide (k = k') then Some v else dict_get k' d.
Proof.
  case_decide; [subst; apply dict_get_set_eq | by apply dict_get_set_ne].
Qed.

Lemma dict_set_set d k v v' : dict_set k v' (dict_set k v d) = dict_set k v' d.
Proof.
  induction d as [|[k0 v0] d IH]; simpl.
  - by rewrite Z.eqb_refl.
  - destruct (k =? k0) eqn:E; simpl; rewrite ?Z.eqb_refl, ?E; [done | by rewrite IH].
Qed.

Lemma dict_keys_set d k v v' :
  dict_get k d = Some v' → dict_keys (dict_set k v d) = dict_keys d.
Proof.
  unfold dict_keys. induction d as [|[k0 v0] d IH]; simpl; [done|].
  destruct (k =? k0) eqn:E; simpl.
  - apply Z.eqb_eq in E. by subst.
  - intros H. f_equal. by apply IH.
Qed.

Lemma dict_get_is_Some d k : k ∈ dict_keys d ↔ is_Some (dict_get k d).
Proof.
  unfold dict_keys. induction d as [|[k0 v0] d IH]; simpl.
  - split; [by intros ?%elem_of_nil | by intros [? ?]].
  - rewrite elem_of_cons. destruct (k =? k0) eqn:E.
    + apply Z.eqb_eq in E. split; [eauto | by left].
    + apply Z.eqb_neq in E. rewrite <- IH.
      split; [intros [?|?]; done | by right].
Qed.

Lemma dict_get_elem d k v : dict_get k d = Some v → (k, v) ∈ d.
Proof.
  induction d as [|[k0 v0] d IH]; simpl; [done|].
  destruct (k =? k0) eqn:E.
  - apply Z.eqb_eq in E. intros [= ->]. subst. by left.
  - intros H. right. auto.
Qed.

Lemma dict_get_NoDup d k v : NoDup (dict_keys d) → (k, v) ∈ d → dict_get k d = Some v.
Proof.
  unfold dict_keys. induction d as [|[k0 v0] d IH]; simpl.
  - by intros _ ?%elem_of_nil.
  - intros [Hk0 Hnd]%NoDup_cons [[= -> ->]|Hin]%elem_of_cons.
    + by rewrite Z.eqb_refl.
    + destruct (k =? k0) eqn:E; [|by auto].
      apply Z.eqb_eq in E. subst k0. exfalso. apply Hk0.
      apply list_elem_of_fmap. by exists (k, v).
Qed.

Lemma sorted_keys_elem d k : k ∈ sorted_keys d ↔ k ∈ dict_keys d.
Proof. unfold sorted_keys. by rewrite merge_sort_Permutation. Qed.

End dict.

Lemma list_pop_spec {A} (l : list A) x r : list_pop l = Some (x, r) ↔ l = r ++ [x].
Proof.
  revert x r. induction l as [|y l IH]; intros x r; simpl.
  - split; [done | by destruct r].
  - destruct (list_pop l) as [[z r']|] eqn:E.
    + pose proof (proj1 (IH z r') eq_refl) as ->. split.
      * by intros [= -> <-].
      * destruct r as [|y' r]; simpl.
        -- intros [= _ H]. by destruct r'.
        -- intros [= -> H]. apply app_inj_tail in H as [-> ->]. done.
    + assert (l = []) as ->.
      { destruct l as [|z l]; [done|]. simpl in E.
        destruct (list_pop l) as [[? ?]|]; done. }
      split.
      * by intros [= -> <-].
      * destruct r as [|y' r]; simpl; [by intros [= ->]|].
        intros [= _ H]. by destruct r.
Qed.

Lemma list_pop_None {A} (l : list A) : list_pop l = None ↔ l = [].
Proof.
  destruct l as [|x l]; simpl; [done|].
  destruct (list_pop l) as [[? ?]|]; done.
Qed.

Lemma nonempty_true {A} (l : list A) : nonempty l = true ↔ l ≠ [].
Proof. by destruct l. Qed.

Lemma nonempty_false {A} (l : list A) : nonempty l = false ↔ l = [].
Proof. by destruct l. Qed.

(** ** The search of [allocate_memory] *)

(** Normalisation of nested field updates, by need: unfolding the
    updates eagerly copies the world at every level. *)
Ltac wsimpl :=
  lazy beta iota zeta delta
    [heap manager clock clock_reads entropy entropy_reads
     memory_pools allocation_history total_allocations total_deallocations
     peak_usage current_fragmentation cache_hits cache_misses memory_pressure
     last_gc_time gc_threshold fragmentation_threshold memory_pressure_threshold
     available allocated total_blocks used_blocks
     set_heap set_manager set_pools set_history set_total_allocations
     set_total_deallocations set_current_fragmentation set_memory_pressure
     set_last_gc_time set_available set_allocated set_used_blocks
     allocated_world deallocated_world].

Ltac munfold :=
  unfold update_pool, deref, assign in *;
  unfold mbind, mret, M_bind, M_ret, gets, modify, raise, try_except,
    getitem, time_time in *.

Lemma find_pool_best size keys w :
  Forall (λ k, is_Some (pool_of w k)) keys →
  find_pool size keys w = (Return (best_pool size (memory_pools (manager w)) keys), w).
Proof.
  unfold pool_of. induction 1 as [|k keys [p Hp] _ IH]; simpl; [done|].
  destruct (size <=? k); [|done].
  munfold. rewrite Hp. by destruct (nonempty (available p)).
Qed.

Lemma best_pool_Some size pools keys k :
  best_pool size pools keys = Some k →
  k ∈ keys ∧ size ≤ k ∧ ∃ p, dict_get k pools = Some p ∧ available p ≠ [].
Proof.
  induction keys as [|k0 keys IH]; simpl; [done|].
  destruct (size <=? k0) eqn:E.
  - destruct (dict_get k0 pools) as [p|] eqn:Hp; [|done].
    destruct (nonempty (available p)) eqn:Hne.
    + intros [= <-]. apply Z.leb_le in E. apply nonempty_true in Hne.
      split; [by left|]. eauto.
    + intros H. destruct (IH H) as (? & ? & ?). split; [by right | done].
  - intros H. destruct (IH H) as (? & ? & ?). split; [by right | done].
Qed.

(** In a list of keys in ascending order, the search returns the least
    key that fits. *)
Lemma best_pool_least size pools keys k :
  StronglySorted Z.le keys →
  best_pool size pools keys = Some k →
  ∀ k' p', k' ∈ keys → dict_get k' pools = Some p' → size ≤ k' → available p' ≠ [] → k ≤ k'.
Proof.
  induction 1 as [|k0 keys Hs IH Hall]; simpl; [done|].
  intros Hb k' p' Hin Hp' Hle Hne.
  apply elem_of_cons in Hin as [->|Hin].
  - apply Z.leb_le in Hle. rewrite Hle, Hp' in Hb.
    apply nonempty_true in Hne. rewrite Hne in Hb. by injection Hb as <-.
  - destruct (size <=? k0) eqn:E.
    + destruct (dict_get k0 pools) as [p|] eqn:Hp; [|done].
      destruct (nonempty (available p)).
      * injection Hb as <-. rewrite Forall_forall in Hall. by apply Hall.
      * eauto.
    + eauto.
Qed.

Lemma best_pool_None size pools keys :
  Forall (λ k, is_Some (dict_get k pools)) keys →
  best_pool size pools keys = None →
  ∀ k p, k ∈ keys → dict_get k pools = Some p → size ≤ k → available p = [].
Proof.
  induction 1 as [|k0 keys [p0 Hp0] _ IH]; simpl; [by intros _ ? ? ?%elem_of_nil|].
  intros Hb k p Hin Hp Hle. rewrite Hp0 in Hb.
  apply elem_of_cons in Hin as [->|Hin].
  - apply Z.leb_le in Hle. rewrite Hle in Hb.
    assert (p0 = p) as -> by congruence.
    destruct (nonempty (available p)) eqn:E; [done|]. by apply nonempty_false.
  - destruct (size <=? k0); [destruct (nonempty (available p0)); [done|] |]; eauto.
Qed.

Lemma keys_have_pools w :
  Forall (λ k, is_Some (pool_of w k)) (dict_keys (memory_pools (manager w))).
Proof. apply Forall_forall. intros k Hk. by apply dict_get_is_Some. Qed.

Lemma sorted_keys_have_pools w :
  Forall (λ k, is_Some (pool_of w k)) (sorted_keys (memory_pools (manager w))).
Proof.
  apply Forall_forall. intros k Hk%sorted_keys_elem. by apply dict_get_is_Some.
Qed.

Lemma sorted_keys_sorted {V} (d : list (Z * V)) : StronglySorted Z.le (sorted_keys d).
Proof. unfold sorted_keys. apply StronglySorted_merge_sort; apply _. Qed.

(** The search over the sorted keys finds the best fit, or reports that
    nothing fits. *)
Lemma best_pool_best_fit w size k :
  best_pool size (memory_pools (manager w)) (sorted_keys (memory_pools (manager w))) = Some k
  ↔ best_fit w size k.
Proof.
  split.
  - intros Hb. destruct (best_pool_Some _ _ _ _ Hb) as (Hin & Hle & p & Hp & Hne).
    split; [by exists p|]. intros k' (p' & Hp' & Hle' & Hne').
    eapply best_pool_least; eauto using sorted_keys_sorted.
    apply sorted_keys_elem, dict_get_is_Some. unfold pool_of in Hp'. by rewrite Hp'.
  - intros [(p & Hp & Hle & Hne) Hleast].
    destruct (best_pool size _ (sorted_keys (memory_pools (manager w)))) as [k0|] eqn:Hb.
    + destruct (best_pool_Some _ _ _ _ Hb) as (Hin & Hle0 & p0 & Hp0 & Hne0).
      assert (k ≤ k0) by (apply Hleast; by exists p0).
      assert (k0 ≤ k).
      { eapply best_pool_least; eauto using sorted_keys_sorted.
        apply sorted_keys_elem, dict_get_is_Some. unfold pool_of in Hp. by rewrite Hp. }
      f_equal. lia.
    + exfalso. apply Hne.
      eapply (best_pool_None size _ _ (sorted_keys_have_pools w) Hb k p); eauto.
      apply sorted_keys_elem, dict_get_is_Some. unfold pool_of in Hp. by rewrite Hp.
Qed.

Lemma best_pool_no_fit w size :
  best_pool size (memory_pools (manager w)) (sorted_keys (memory_pools (manager w))) = None
  ↔ ∀ k p, pool_of w k = Some p → size ≤ k → available p = [].
Proof.
  split.
  - intros Hb k p Hp Hle.
    eapply (best_pool_None size _ _ (sorted_keys_have_pools w) Hb k p); eauto.
    apply sorted_keys_elem, dict_get_is_Some. unfold pool_of in Hp. by rewrite Hp.
  - intros Hall.
    destruct (best_pool size _ (sorted_keys (memory_pools (manager w)))) as [k0|] eqn:Hb; [|done].
    destruct (best_pool_Some _ _ _ _ Hb) as (Hin & Hle0 & p0 & Hp0 & Hne0).
    exfalso. apply Hne0. eapply Hall; eauto.
Qed.

(** ** The result of [allocate_memory] and of [deallocate_memory] *)

Lemma allocate_memory_None w size priority :
  best_pool size (memory_pools (manager w)) (sorted_keys (memory_pools (manager w))) = None →
  allocate_memory size priority w = (Return None, w).
Proof.
  intros Hb. unfold allocate_memory, allocate_body. munfold.
  rewrite (find_pool_best size _ w (sorted_keys_have_pools w)), Hb. done.
Qed.

Lemma allocate_memory_Some w size priority k p r rest :
  best_pool size (memory_pools (manager w)) (sorted_keys (memory_pools (manager w))) = Some k →
  pool_of w k = Some p →
  available p = rest ++ [r] →
  allocate_memory size priority w
  = (Return (Some (b_id (heap (allocated_world w size priority k p r rest) !!! r))),
     allocated_world w size priority k p r rest).
Proof.
  intros Hb Hp Hav. unfold allocate_memory, allocate_body. munfold.
  rewrite (find_pool_best size _ w (sorted_keys_have_pools w)), Hb.
  unfold pool_of in Hp. rewrite Hp.
  apply list_pop_spec in Hav. rewrite Hav. simpl.
  repeat (rewrite ?Hp, ?dict_get_set_eq, ?dict_set_set; simpl).
  wsimpl. by rewrite !dict_set_set.
Qed.

Lemma deallocate_scan_locate block_id keys w :
  Forall (λ k, is_Some (pool_of w k)) keys →
  deallocate_scan block_id keys w
  = match locate block_id (heap w) (memory_pools (manager w)) keys with
    | Some (k, p, i, r) => (Return true, deallocated_world w k p i r)
    | None => (Return false, w)
    end.
Proof.
  unfold pool_of. induction 1 as [|k keys [p Hp] _ IH]; simpl; [done|].
  munfold. rewrite Hp.
  destruct (list_find _ (allocated p)) as [[i r]|]; [|done]. simpl.
  repeat (rewrite ?Hp, ?dict_get_set_eq, ?dict_set_set; simpl).
  wsimpl. by rewrite !dict_set_set.
Qed.

Lemma deallocate_memory_locate block_id w :
  deallocate_memory block_id w
  = match locate block_id (heap w) (memory_pools (manager w))
            (dict_keys (memory_pools (manager w))) with
    | Some (k, p, i, r) => (Return true, deallocated_world w k p i r)
    | None => (Return false, w)
    end.
Proof.
  unfold deallocate_memory, deallocate_body. munfold.
  rewrite (deallocate_scan_locate _ _ w (keys_have_pools w)).
  by destruct (locate _ _ _ _) as [[[[k p] i] r]|].
Qed.

Lemma locate_Some block_id h pools keys k p i r :
  locate block_id h pools keys = Some (k, p, i, r) →
  k ∈ keys ∧ dict_get k pools = Some p ∧
  list_find (λ r, b_id (h !!! r) = block_id) (allocated p) = Some (i, r).
Proof.
  induction keys as [|k0 keys IH]; simpl; [done|].
  destruct (dict_get k0 pools) as [p0|] eqn:Hp0; [|done].
  destruct (list_find _ (allocated p0)) as [[i0 r0]|] eqn:Hf.
  - intros [= <- <- <- <-]. split; [by left | done].
  - intros H. destruct (IH H) as (? & ? & ?). split; [by right | done].
Qed.

Lemma locate_None block_id h pools keys :
  Forall (λ k, is_Some (dict_get k pools)) keys →
  locate block_id h pools keys = None →
  ∀ k p r, k ∈ keys → dict_get k pools = Some p → r ∈ allocated p →
    b_id (h !!! r) ≠ block_id.
Proof.
  induction 1 as [|k0 keys [p0 Hp0] _ IH]; simpl; [by intros _ ? ? ? ?%elem_of_nil|].
  rewrite Hp0.
  destruct (list_find _ (allocated p0)) as [[i0 r0]|] eqn:Hf; [done|].
  intros Hl k p r [->|Hin]%elem_of_cons Hp Hr.
  - assert (p0 = p) as -> by congruence.
    apply list_find_None in Hf. rewrite Forall_forall in Hf. by apply Hf.
  - by eapply IH.
Qed.

(** The scan finds a block exactly when one is allocated under the
    identifier. *)
Lemma locate_is_Some w block_id :
  is_Some (locate block_id (heap w) (memory_pools (manager w))
             (dict_keys (memory_pools (manager w))))
  ↔ is_allocated w block_id.
Proof.
  split.
  - intros [[[[k p] i] r] Hl]. apply locate_Some in Hl as (_ & Hp & Hf).
    apply list_find_Some in Hf as (Hi & Hid & _).
    exists k, p, r. split_and!; [done | | done].
    apply list_elem_of_lookup. by exists i.
  - intros (k & p & r & Hp & Hr & Hid).
    destruct (locate _ _ _ _) as [x|] eqn:Hl; [by eexists|]. exfalso.
    eapply (locate_None _ _ _ _ (keys_have_pools w) Hl k p r); eauto.
    apply dict_get_is_Some. unfold pool_of in Hp. by rewrite Hp.
Qed.

(** Every allocation either finds nothing and changes nothing, or takes
    the last available block of the best-fitting class. *)
Lemma allocate_memory_cases w size priority :
  ((∀ k p, pool_of w k = Some p → size ≤ k → available p = []) ∧
   allocate_memory size priority w = (Return None, w))
  ∨ (∃ k p r rest,
       best_fit w size k ∧ pool_of w k = Some p ∧ available p = rest ++ [r] ∧
       allocate_memory size priority w
       = (Return (Some (b_id (heap w !!! r))), allocated_world w size priority k p r rest)).
Proof.
  destruct (best_pool size (memory_pools (manager w))
              (sorted_keys (memory_pools (manager w)))) as [k|] eqn:Hb.
  - right. pose proof (proj1 (best_pool_best_fit w size k) Hb) as Hfit.
    destruct Hfit as [(p & Hp & Hle & Hne) Hleast].
    destruct (list_pop (available p)) as [[r rest]|] eqn:Hpop.
    + apply list_pop_spec in Hpop. exists k, p, r, rest.
      split_and!; [by split; [exists p|] | done | done |].
      rewrite (allocate_memory_Some w size priority k p r rest Hb Hp Hpop).
      f_equal. f_equal. f_equal. simpl.
      rewrite !list_lookup_total_alter. by repeat case_decide.
    + by apply list_pop_None in Hpop.
  - left. split; [by apply best_pool_no_fit | by apply allocate_memory_None].
Qed.

(** ** Worlds after an allocation and after a deallocation *)

Lemma b_id_alter (f : Block → Block) r (h : list Block) r' :
  (∀ b, b_id (f b) = b_id b) → b_id (alter f r h !!! r') = b_id (h !!! r').
Proof.
  intros Hf. rewrite list_lookup_total_alter.
  case_decide as H; [destruct H as [-> _]; apply Hf | done].
Qed.

Lemma b_size_alter (f : Block → Block) r (h : list Block) r' :
  (∀ b, b_size (f b) = b_size b) → b_size (alter f r h !!! r') = b_size (h !!! r').
Proof.
  intros Hf. rewrite list_lookup_total_alter.
  case_decide as H; [destruct H as [-> _]; apply Hf | done].
Qed.

Lemma b_id_allocated_world w size priority k p r rest r' :
  b_id (heap (allocated_world w size priority k p r rest) !!! r') = b_id (heap w !!! r').
Proof. simpl. by rewrite !b_id_alter. Qed.

Lemma b_id_deallocated_world w k p i r r' :
  b_id (heap (deallocated_world w k p i r) !!! r') = b_id (heap w !!! r').
Proof. simpl. by rewrite !b_id_alter. Qed.

Lemma pool_of_allocated_world w size priority k p r rest k' :
  pool_of (allocated_world w size priority k p r rest) k'
  = if decide (k = k')
    then Some (mkPool rest (allocated p ++ [r]) (total_blocks p) (used_blocks p + 1))
    else pool_of w k'.
Proof. unfold pool_of. simpl. apply dict_get_set. Qed.

Lemma pool_of_deallocated_world w k p i r k' :
  pool_of (deallocated_world w k p i r) k'
  = if decide (k = k')
    then Some (mkPool (available p ++ [r]) (delete i (allocated p))
                 (total_blocks p) (used_blocks p - 1))
    else pool_of w k'.
Proof. unfold pool_of. simpl. apply dict_get_set. Qed.

Lemma keys_allocated_world w size priority k p r rest :
  pool_of w k = Some p →
  dict_keys (memory_pools (manager (allocated_world w size priority k p r rest)))
  = dict_keys (memory_pools (manager w)).
Proof. intros Hp. simpl. by eapply dict_keys_set. Qed.

Lemma keys_deallocated_world w k p i r :
  pool_of w k = Some p →
  dict_keys (memory_pools (manager (deallocated_world w k p i r)))
  = dict_keys (memory_pools (manager w)).
Proof. intros Hp. simpl. by eapply dict_keys_set. Qed.

Lemma lookup_total_dangling (h : list Block) r :
  (length h ≤ r)%nat → h !!! r = inhabitant.
Proof. intros H. by rewrite list_lookup_total_alt, lookup_ge_None_2. Qed.

(** The block freed carries no timestamp afterwards. *)
Lemma cleared_timestamps (h : list Block) r :
  let h' := alter (set_last_access None) r (alter (set_allocated_at None) r h) in
  b_allocated_at (h' !!! r) = None ∧ b_last_access (h' !!! r) = None.
Proof.
  simpl. destruct (decide (r < length h)%nat) as [Hlt|Hge].
  - rewrite !list_lookup_total_alter_eq by (by rewrite ?length_alter). done.
  - rewrite lookup_total_dangling by (rewrite !length_alter; lia). done.
Qed.

(** What [deallocate_memory] does, in one statement. *)
Lemma deallocate_memory_cases w block_id :
  (¬ is_allocated w block_id ∧ deallocate_memory block_id w = (Return false, w))
  ∨ (∃ k p i r,
       pool_of w k = Some p ∧
       list_find (λ r, b_id (heap w !!! r) = block_id) (allocated p) = Some (i, r) ∧
       deallocate_memory block_id w = (Return true, deallocated_world w k p i r)).
Proof.
  rewrite deallocate_memory_locate.
  destruct (locate _ _ _ _) as [[[[k p] i] r]|] eqn:Hl.
  - right. exists k, p, i, r. apply locate_Some in Hl as (_ & Hp & Hf). done.
  - left. split; [|done]. intros Ha%locate_is_Some. rewrite Hl in Ha. by destruct Ha.
Qed.

Lemma list_find_is_allocated w block_id k p i r :
  pool_of w k = Some p →
  list_find (λ r, b_id (heap w !!! r) = block_id) (allocated p) = Some (i, r) →
  is_allocated w block_id.
Proof.
  intros Hp (Hi & Hid & _)%list_find_Some. exists k, p, r.
  split_and!; [done | | done]. apply list_elem_of_lookup. by exists i.
Qed.

(** * The claims of the specification *)

(** C3. [allocate_memory] returns [None] (the out-of-memory answer)
    exactly when every size class at least as large as the request has an
    empty available list; it then leaves the whole world unchanged: pools,
    blocks, allocation history, counters and both oracles. It never
    raises. *)
Theorem allocate_memory_out_of_memory w size priority :
  ((allocate_memory size priority w).1 = Return None
   ↔ ∀ k p, pool_of w k = Some p → size ≤ k → available p = [])
  ∧ ((allocate_memory size priority w).1 = Return None
     → (allocate_memory size priority w).2 = w)
  ∧ (∀ e, (allocate_memory size priority w).1 ≠ Raise e).
Proof.
  destruct (allocate_memory_cases w size priority)
    as [[Hall ->]|(k & p & r & rest & [(p' & Hp' & Hle & Hne) _] & Hp & Hav & ->)]; simpl.
  - split_and!; [done | done | by intros e].
  - split_and!; [|done | by intros e].
    split; [done|]. intros Hall. exfalso. apply Hne. eauto.
Qed.

(** C7. [deallocate_memory] returns [True] exactly when some pool holds an
    allocated block with the identifier. Then the first such block, in the
    order of the scan, has its two timestamps cleared, leaves the allocated
    list of its pool for the end of the available list of the same pool,
    [used_blocks] of that pool and [total_deallocations] are adjusted, and
    nothing else changes. Otherwise the call returns [False], raises
    nothing and leaves the world unchanged. So when no allocated block
    carries the identifier that an allocation returns, deallocating it
    twice answers [True] and then [False]. *)
Theorem deallocate_memory_spec w block_id :
  ((deallocate_memory block_id w).1 = Return true ↔ is_allocated w block_id)
  ∧ (is_allocated w block_id →
     ∃ k p i r w',
       deallocate_memory block_id w = (Return true, w') ∧
       pool_of w k = Some p ∧ allocated p !! i = Some r ∧
       b_id (heap w !!! r) = block_id ∧
       b_allocated_at (heap w' !!! r) = None ∧
       b_last_access (heap w' !!! r) = None ∧
       (∀ r', r' ≠ r → heap w' !!! r' = heap w !!! r') ∧
       pool_of w' k = Some (mkPool (available p ++ [r]) (delete i (allocated p))
                              (total_blocks p) (used_blocks p - 1)) ∧
       (∀ k', k' ≠ k → pool_of w' k' = pool_of w k') ∧
       total_deallocations (manager w') = total_deallocations (manager w) + 1 ∧
       allocation_history (manager w') = allocation_history (manager w) ∧
       total_allocations (manager w') = total_allocations (manager w))
  ∧ (¬ is_allocated w block_id → deallocate_memory block_id w = (Return false, w))
  ∧ (∀ size priority w1,
       ¬ is_allocated w block_id →
       allocate_memory size priority w = (Return (Some block_id), w1) →
       ∃ w2, deallocate_memory block_id w1 = (Return true, w2) ∧
             deallocate_memory block_id w2 = (Return false, w2)).
Proof.
  assert (Hfree : ∀ w0, ¬ is_allocated w0 block_id →
            deallocate_memory block_id w0 = (Return false, w0)).
  { intros w0 Hno.
    destruct (deallocate_memory_cases w0 block_id) as [[_ ?]|(k & p & i & r & Hp & Hf & _)];
      [done|]. exfalso. eauto using list_find_is_allocated. }
  split_and!.
  - destruct (deallocate_memory_cases w block_id) as [[Hno ->]|(k & p & i & r & Hp & Hf & ->)];
      simpl; [by split | split; [eauto using list_find_is_allocated | done]].
  - intros Ha.
    destruct (deallocate_memory_cases w block_id) as [[Hno _]|(k & p & i & r & Hp & Hf & ->)];
      [done|].
    apply list_find_Some in Hf as (Hi & Hid & _).
    exists k, p, i, r, (deallocated_world w k p i r).
    split_and!; try done.
    + apply cleared_timestamps.
    + apply cleared_timestamps.
    + intros r' Hne. simpl. by rewrite !list_lookup_total_alter_ne.
    + rewrite pool_of_deallocated_world. by case_decide.
    + intros k' Hne. rewrite pool_of_deallocated_world. by case_decide.
  - apply Hfree.
  - intros size priority w1 Hno Halloc.
    destruct (allocate_memory_cases w size priority)
      as [[_ Heq]|(k & p & r & rest & _ & Hp & Hav & Heq)];
      rewrite Heq in Halloc; [done|].
    injection Halloc as Hid <-.
    set (w1 := allocated_world w size priority k p r rest).
    assert (Hnone : Forall (λ r0, ¬ b_id (heap w1 !!! r0) = block_id) (allocated p)).
    { apply Forall_forall. intros r0 Hr0 Hid0. apply Hno. exists k, p, r0.
      unfold w1 in Hid0. by rewrite b_id_allocated_world in Hid0. }
    destruct (deallocate_memory_cases w1 block_id)
      as [[Hno1 _]|(k1 & p1 & i & r1 & Hp1 & Hf & Heq1)].
    { exfalso. apply Hno1. exists k, (mkPool rest (allocated p ++ [r]) (total_blocks p) (used_blocks p + 1)), r.
      split_and!.
      - unfold w1. rewrite pool_of_allocated_world. by case_decide.
      - simpl. apply elem_of_app. right. by left.
      - unfold w1. by rewrite b_id_allocated_world. }
    exists (deallocated_world w1 k1 p1 i r1). split; [done|].
    apply Hfree. unfold w1 in Hp1. rewrite pool_of_allocated_world in Hp1.
    case_decide as Hk.
    + subst k1. injection Hp1 as <-. simpl in Hf.
      apply list_find_app_Some in Hf as [Hf|(Hlen & _ & Hf)].
      { apply list_find_Some in Hf as (Hi & Hidr & _).
        rewrite Forall_forall in Hnone. exfalso. eapply Hnone; [|done].
        apply list_elem_of_lookup. by exists i. }
      apply list_find_Some in Hf as (Hi & _ & _).
      apply list_lookup_singleton_Some in Hi as [Hi <-].
      assert (i = length (allocated p)) as -> by lia.
      intros (k' & p' & r' & Hp' & Hr' & Hid').
      rewrite b_id_deallocated_world in Hid'. unfold w1 in Hid'.
      rewrite b_id_allocated_world in Hid'.
      rewrite pool_of_deallocated_world in Hp'. case_decide.
      * subst k'. injection Hp' as <-. simpl in Hr'.
        replace (allocated p ++ [r]) with (allocated p ++ r :: []) in Hr' by done.
        rewrite delete_middle, app_nil_r in Hr'. apply Hno. by exists k, p, r'.
      * unfold w1 in Hp'. rewrite pool_of_allocated_world in Hp'. case_decide; [done|].
        apply Hno. by exists k', p', r'.
    + exfalso. apply Hno. apply list_find_Some in Hf as (Hi & Hidr & _).
      exists k1, p1, r1. split_and!; [done | |].
      * apply list_elem_of_lookup. by exists i.
      * unfold w1 in Hidr. by rewrite b_id_allocated_world in Hidr.
Qed.

(** Identifiers of the 1KB and of the 2KB class differ at their eighth
    character. *)
Lemma block_name_2_1 x y : block_name 2 x ≠ block_name 1 y.
Proof.
  unfold block_name.
  replace (pretty 2) with "2" by (by vm_compute).
  replace (pretty 1) with "1" by (by vm_compute).
  lazy beta iota delta [String.append]. fold String.append.
  intros H. discriminate H.
Qed.

(** C2. An allocation takes the last available block of the smallest size
    class that is at least the requested size and has an available block.
    In particular, with the classes 1, 2 and 4 KB of two blocks each, two
    allocations of size 1 exhaust the 1KB class and the third one returns a
    block of the 2KB class, whose identifier differs from the first two. *)
Theorem allocate_memory_best_fit :
  (∀ w size priority k,
     best_fit w size k →
     ∃ p r rest w',
       pool_of w k = Some p ∧ available p = rest ++ [r] ∧
       allocate_memory size priority w = (Return (Some (b_id (heap w !!! r))), w') ∧
       pool_of w' k = Some (mkPool rest (allocated p ++ [r])
                              (total_blocks p) (used_blocks p + 1)) ∧
       (∀ k', k' ≠ k → pool_of w' k' = pool_of w k'))
  ∧ (∀ clk ent,
       ∃ id1 id2 id3 w1 w2 w3 p1 p2 r3,
         allocate_memory 1 "normal" (boot_with [1; 2; 4] (λ _, 2) clk ent)
         = (Return (Some id1), w1) ∧
         allocate_memory 1 "normal" w1 = (Return (Some id2), w2) ∧
         pool_of w2 1 = Some p1 ∧ available p1 = [] ∧
         allocate_memory 1 "normal" w2 = (Return (Some id3), w3) ∧
         pool_of w3 2 = Some p2 ∧ allocated p2 = [r3] ∧
         b_id (heap w3 !!! r3) = id3 ∧
         id3 ≠ id1 ∧ id3 ≠ id2).
Proof.
  split.
  - intros w size priority k [Hfit Hleast].
    destruct (allocate_memory_cases w size priority)
      as [[Hall _]|(k0 & p & r & rest & [Hfit0 Hleast0] & Hp & Hav & Heq)].
    + destruct Hfit as (p & Hp & Hle & Hne). exfalso. apply Hne. eauto.
    + assert (k0 = k) as -> by (apply Z.le_antisymm; auto).
      exists p, r, rest, (allocated_world w size priority k p r rest).
      split_and!; [done | done | done | |].
      * rewrite pool_of_allocated_world. by case_decide.
      * intros k' Hne. rewrite pool_of_allocated_world. by case_decide.
  - intros clk ent.
    eexists _, _, _, _, _, _, _, _, _.
    split_and!;
      try (lazy -[block_name Z.modulo Z.add Z.sub]; reflexivity);
      apply block_name_2_1.
Qed.

(** * Properties kept by every method *)

Lemma preserves_ret {A} P (a : A) : preserves P (mret a).
Proof. by intros w Hw. Qed.

Lemma preserves_raise {A} P e : preserves P (@raise A e).
Proof. by intros w Hw. Qed.

Lemma preserves_gets {A} P (f : World → A) : preserves P (gets f).
Proof. by intros w Hw. Qed.

Lemma preserves_getitem P k : preserves P (getitem k).
Proof. intros w Hw. unfold getitem. by destruct (dict_get _ _). Qed.

Lemma preserves_deref P r : preserves P (deref r).
Proof. by intros w Hw. Qed.

Lemma preserves_bind {A B} P (m : M A) (f : A → M B) :
  preserves P m → (∀ a, preserves P (f a)) → preserves P (m ≫= f).
Proof.
  intros Hm Hf w Hw. unfold mbind, M_bind. specialize (Hm w Hw).
  destruct (m w) as [[a|e] w']; simpl in *; [by apply Hf | done].
Qed.

Lemma preserves_try_except {A} P (body : M A) handler :
  preserves P body → (∀ e, preserves P (handler e)) → preserves P (try_except body handler).
Proof.
  intros Hm Hf w Hw. unfold try_except. specialize (Hm w Hw).
  destruct (body w) as [[a|e] w']; simpl in *; [done | by apply Hf].
Qed.

Lemma preserves_for_acc {A S} P (xs : list A) (body : S → A → M S) acc :
  (∀ s x, preserves P (body s x)) → preserves P (for_acc xs body acc).
Proof.
  intros Hb. revert acc. induction xs as [|x xs IH]; intros acc; simpl.
  - apply preserves_ret.
  - apply preserves_bind; auto.
Qed.

Lemma preserves_true_div P x y : preserves P (true_div x y).
Proof. unfold true_div. destruct (y =? 0); [apply preserves_raise | apply preserves_ret]. Qed.

Lemma pools_frame_fragmentation x : pools_frame (set_current_fragmentation x).
Proof. by intros m. Qed.

Lemma pools_frame_pressure x : pools_frame (set_memory_pressure x).
Proof. by intros m. Qed.

Lemma pools_frame_gc_time x : pools_frame (set_last_gc_time x).
Proof. by intros m. Qed.

Section preservation.
Variable P : World → Prop.
Hypothesis P_allocate : ∀ size priority, preserves P (allocate_memory size priority).
Hypothesis P_deallocate : ∀ block_id, preserves P (deallocate_memory block_id).
Hypothesis P_time : preserves P time_time.
Hypothesis P_randint : ∀ a b, preserves P (random_randint a b).
Hypothesis P_frame : ∀ f, pools_frame f → preserves P (modify (set_manager f)).

Local Ltac step :=
  first
    [ apply preserves_ret | apply preserves_raise | apply preserves_gets
    | apply preserves_getitem | apply preserves_deref | apply preserves_true_div
    | apply P_allocate | apply P_deallocate | apply P_time | apply P_randint
    | apply P_frame;
      first [apply pools_frame_fragmentation | apply pools_frame_pressure
            | apply pools_frame_gc_time]
    | apply preserves_bind; [|intros ?]
    | apply preserves_try_except; [|intros ?]
    | apply preserves_for_acc; intros ? ?
    | match goal with
      | |- preserves _ (if ?b then _ else _) => destruct b
      | |- preserves _ (match ?x with _ => _ end) => destruct x
      end ].

Lemma preserves_migrate pool_size block keys : preserves P (migrate pool_size block keys).
Proof.
  induction keys as [|smaller_size keys IH]; simpl; [apply preserves_ret|].
  repeat first [apply IH | step].
Qed.

Lemma preserves_defragment : preserves P _defragment_memory.
Proof.
  unfold _defragment_memory, defragment_pool, defragment_block.
  repeat first [apply preserves_migrate | step].
Qed.

Lemma preserves_garbage_collect : preserves P garbage_collect.
Proof.
  unfold garbage_collect, collect_pool, collect_block.
  repeat first [apply preserves_defragment | step].
Qed.

Lemma preserves_update_memory_stats used_mb total_mb :
  preserves P (_update_memory_stats used_mb total_mb).
Proof.
  unfold _update_memory_stats, _calculate_fragmentation, _update_cache_stats.
  repeat step.
Qed.

Lemma preserves_get_memory_info : preserves P get_memory_info.
Proof.
  unfold get_memory_info. repeat first [apply preserves_update_memory_stats | step].
Qed.

Lemma preserves_get_memory_map : preserves P get_memory_map.
Proof. unfold get_memory_map, map_entry. repeat step. Qed.

Lemma preserves_get_memory_analytics : preserves P get_memory_analytics.
Proof. unfold get_memory_analytics. repeat step. Qed.

Lemma preserves_exec c : ∀ w, P w → P (exec w c).
Proof.
  destruct c; simpl.
  - apply P_allocate.
  - apply P_deallocate.
  - apply preserves_garbage_collect.
  - apply preserves_defragment.
  - apply preserves_get_memory_info.
  - apply preserves_update_memory_stats.
  - apply preserves_get_memory_map.
  - apply preserves_get_memory_analytics.
Qed.

Lemma preserves_run calls : ∀ w, P w → P (run w calls).
Proof.
  induction calls as [|c calls IH]; intros w Hw; simpl; [done|].
  apply IH. by apply preserves_exec.
Qed.
End preservation.

(** ** The pools after [__init__] *)

Lemma boot_memory_pools clk ent : memory_pools (manager (boot clk ent)) = boot_pools.
Proof. by vm_compute. Qed.

Lemma boot_clock clk ent : clock (boot clk ent) = clk.
Proof. by vm_compute. Qed.

(** ** The counts of the pools *)

Lemma dict_set_Forall {V} (Q : Z → V → Prop) k v (d : list (Z * V)) :
  Forall (λ kp, Q kp.1 kp.2) d → Q k v → Forall (λ kp, Q kp.1 kp.2) (dict_set k v d).
Proof.
  intros Hd Hv. induction Hd as [|[k0 v0] d H0 Hd IH]; simpl.
  - by repeat constructor.
  - destruct (k =? k0); constructor; auto.
Qed.

Lemma dict_get_Forall {V} (Q : Z → V → Prop) k v (d : list (Z * V)) :
  Forall (λ kp, Q kp.1 kp.2) d → dict_get k d = Some v → Q k v.
Proof.
  intros Hd Hv%dict_get_elem. rewrite Forall_forall in Hd. by apply (Hd (k, v)).
Qed.

Lemma pools_ok_allocate size priority : preserves pools_ok (allocate_memory size priority).
Proof.
  intros w [Hkeys Hw].
  destruct (allocate_memory_cases w size priority)
    as [[_ ->]|(k & p & r & rest & _ & Hp & Hav & ->)]; [done|].
  cbn [snd]. split; [by rewrite (keys_allocated_world _ _ _ _ _ _ _ Hp)|].
  simpl. apply dict_set_Forall; [done|].
  destruct (dict_get_Forall _ _ _ _ Hw Hp) as (Htotal & Hused & Hcap).
  split_and!; simpl; [| |done].
  - rewrite Hav in Htotal. rewrite !length_app in *. simpl in *. lia.
  - rewrite length_app. simpl. lia.
Qed.

Lemma pools_ok_deallocate block_id : preserves pools_ok (deallocate_memory block_id).
Proof.
  intros w [Hkeys Hw].
  destruct (deallocate_memory_cases w block_id)
    as [[_ ->]|(k & p & i & r & Hp & Hf & ->)]; [done|].
  apply list_find_Some in Hf as (Hi & _ & _).
  cbn [snd]. split; [by rewrite (keys_deallocated_world _ _ _ _ _ Hp)|].
  simpl. apply dict_set_Forall; [done|].
  destruct (dict_get_Forall _ _ _ _ Hw Hp) as (Htotal & Hused & Hcap).
  pose proof (lookup_lt_Some _ _ _ Hi) as Hlt.
  split_and!; simpl; [| |done].
  - rewrite length_app, length_delete by eauto. simpl. lia.
  - rewrite length_delete by eauto. lia.
Qed.

Lemma pools_ok_frame f : pools_frame f → preserves pools_ok (modify (set_manager f)).
Proof. intros Hf w Hw. unfold pools_ok in *. simpl. by rewrite Hf. Qed.

Lemma pools_ok_boot clk ent : pools_ok (boot clk ent).
Proof.
  unfold pools_ok. rewrite boot_memory_pools. split; [done|].
  repeat constructor.
Qed.

(** The counts agree in every world that a program reaches. *)
Lemma reachable_pools_ok w : reachable w → pools_ok w.
Proof.
  intros (clk & ent & calls & ->).
  apply preserves_run; auto using pools_ok_allocate, pools_ok_deallocate,
    pools_ok_frame, pools_ok_boot.
  - by intros w Hw.
  - by intros a b w Hw.
Qed.

(** ** [get_memory_map] *)

Lemma pool_sizes_NoDup : NoDup pool_sizes.
Proof. apply (bool_decide_unpack _). by vm_compute. Qed.

Lemma for_acc_cons {A S} (x : A) xs (body : S → A → M S) acc w :
  for_acc (x :: xs) body acc w
  = match body acc x w with
    | (Return acc', w') => for_acc xs body acc' w'
    | (Raise e, w') => (Raise e, w')
    end.
Proof. done. Qed.

Lemma map_entry_run w k p acc :
  pool_of w k = Some p → total_blocks p ≠ 0 →
  used_blocks p = Z.of_nat (length (allocated p)) →
  map_entry acc k w = (Return (acc ++ [map_row (k, p)]), w).
Proof.
  intros Hp Hne%Z.eqb_neq Hused. unfold map_entry, true_div, pool_of in *. munfold.
  rewrite Hp, Hne. unfold map_row. simpl. by rewrite Hused.
Qed.

Lemma map_entries_run w (d : list (Z * Pool)) acc :
  Forall (λ kp, pool_of w kp.1 = Some kp.2 ∧ total_blocks kp.2 ≠ 0
                ∧ used_blocks kp.2 = Z.of_nat (length (allocated kp.2))) d →
  for_acc (dict_keys d) map_entry acc w = (Return (acc ++ (map_row <$> d)), w).
Proof.
  intros Hd. revert acc. induction Hd as [|[k p] d (Hp & Hne & Hused) _ IH]; intros acc.
  - simpl. by rewrite app_nil_r.
  - unfold dict_keys in *. rewrite !fmap_cons, for_acc_cons. simpl in *.
    rewrite (map_entry_run w k p acc Hp Hne Hused), IH, <- app_assoc. done.
Qed.

Lemma get_memory_map_run w :
  pools_ok w →
  get_memory_map w = (Return (map_row <$> memory_pools (manager w)), w).
Proof.
  intros [Hkeys Hw]. unfold get_memory_map. munfold.
  apply (map_entries_run w _ []).
  assert (Hnd : NoDup (dict_keys (memory_pools (manager w)))).
  { rewrite Hkeys. apply pool_sizes_NoDup. }
  apply Forall_forall. intros [k p] Hin.
  rewrite Forall_forall in Hw. destruct (Hw _ Hin) as (_ & Hused & Hcap). simpl in *.
  split_and!; [by apply dict_get_NoDup | | done].
  rewrite Hcap. unfold block_count. repeat case_match; lia.
Qed.

Lemma reachable_boot clk ent : reachable (boot clk ent).
Proof. exists clk, ent, []. change (boot clk ent = boot clk ent). reflexivity. Qed.

Lemma reachable_demo_world : reachable demo_world.
Proof. by eexists _, _, _. Qed.

(** C1. In every world reached from the import of the module by any
    sequence of calls (allocations, deallocations, garbage collections,
    defragmentations and the reporting calls, failed or not), the available
    and the allocated list of every size class hold together as many blocks
    as the capacity of the class, and that capacity is the one fixed at
    initialization. *)
Theorem capacity_invariant w k p :
  reachable w → pool_of w k = Some p →
  Z.of_nat (length (available p)) + Z.of_nat (length (allocated p)) = total_blocks p
  ∧ total_blocks p = block_count k.
Proof.
  intros [_ Hw]%reachable_pools_ok Hp.
  destruct (dict_get_Forall _ _ _ _ Hw Hp) as (? & ? & ?). done.
Qed.

Lemma capacity_invariant_witness :
  ∃ p, pool_of demo_world 4 = Some p ∧ allocated p = [149%nat] ∧
       Z.of_nat (length (available p)) + Z.of_nat (length (allocated p)) = total_blocks p ∧
       total_blocks p = block_count 4.
Proof.
  eexists. split; [by vm_compute|]. split; [done|].
  apply (capacity_invariant demo_world 4); [apply reachable_demo_world | by vm_compute].
Defined.

(** C10. In every reachable world the counter [used_blocks] of every size
    class is the length of its allocated list; [get_memory_map] then
    returns, for every class, a row whose used and free counts add up to
    the total and whose utilization is the used count over the total. *)
Theorem used_blocks_invariant w :
  reachable w →
  (∀ k p, pool_of w k = Some p → used_blocks p = Z.of_nat (length (allocated p)))
  ∧ get_memory_map w = (Return (map_row <$> memory_pools (manager w)), w)
  ∧ Forall (λ row : string * MapEntry,
      map_used_blocks row.2 + map_free_blocks row.2 = map_total_blocks row.2
      ∧ map_utilization row.2
        = (inject_Z (map_used_blocks row.2) / inject_Z (map_total_blocks row.2) * 100)%Q)
      (map_row <$> memory_pools (manager w)).
Proof.
  intros Hok%reachable_pools_ok. pose proof Hok as [_ Hw]. split_and!.
  - intros k p Hp. destruct (dict_get_Forall _ _ _ _ Hw Hp) as (? & ? & ?). done.
  - by apply get_memory_map_run.
  - apply Forall_fmap. eapply Forall_impl; [exact Hw|].
    intros [k p] (Htotal & _ & _). simpl in *. split; [lia | done].
Qed.

Lemma used_blocks_invariant_witness :
  (∀ k p, pool_of demo_world k = Some p → used_blocks p = Z.of_nat (length (allocated p)))
  ∧ (get_memory_map demo_world).1
    = Return (map_row <$> memory_pools (manager demo_world))
  ∧ pool_of demo_world 4 = Some (mkPool (seq 100 49) [149%nat] 50 1).
Proof.
  destruct (used_blocks_invariant demo_world reachable_demo_world) as (H1 & H2 & _).
  split_and!; [exact H1 | by rewrite H2 | by vm_compute].
Defined.

(** ** Memory pressure *)


Lemma Qgt_bool_false x y : Qgt_bool x y = false ↔ (x <= y)%Q.
Proof.
  unfold Qgt_bool. rewrite negb_false_iff, Qle_bool_iff. done.
Qed.

Lemma update_memory_stats_run w used_mb total_mb :
  total_mb ≠ 0 →
  _update_memory_stats used_mb total_mb w
  = (Return tt,
     set_manager
       (set_memory_pressure (stepped_pressure (inject_Z used_mb / inject_Z total_mb)))
       (set_manager (set_current_fragmentation 5) w)).
Proof.
  intros Hne%Z.eqb_neq.
  unfold _update_memory_stats, _calculate_fragmentation, _update_cache_stats, true_div,
    stepped_pressure.
  munfold. rewrite Hne.
  destruct (Qgt_bool _ (9 # 10)); [done|]. by destruct (Qgt_bool _ (7 # 10)).
Qed.





(** ** [get_memory_analytics] *)




(** ** Identifiers *)

(** C4 at a failing input. When the second draw of [random.randint]
    repeats the first, the world right after the import holds two
    different blocks of the 1KB class under the identifier
    ["block_1_1000"]: the identifiers of the pools are not free of
    duplicates. *)
Theorem block_ids_collide :
  reachable (boot demo_clock colliding_entropy)
  ∧ pool_of (boot demo_clock colliding_entropy) 1 = Some (mkPool (seq 0 50) [] 50 0)
  ∧ b_id (heap (boot demo_clock colliding_entropy) !!! 0%nat) = "block_1_1000"
  ∧ b_id (heap (boot demo_clock colliding_entropy) !!! 1%nat) = "block_1_1000"
  ∧ ¬ NoDup (all_ids (boot demo_clock colliding_entropy)).
Proof.
  split_and!; [apply reachable_boot | by vm_compute..|].
  intros Hnd.
  assert (H : 0%nat = 1%nat); [|done].
  eapply (NoDup_lookup _ _ _ "block_1_1000" Hnd); by vm_compute.
Qed.

(** ** Defragmentation *)

(** C6 at a failing input. In [oversized_world] the single allocated block
    of the 4KB class was requested for 1 KB, less than half of its class,
    and the 1KB class has an available block; yet [_defragment_memory]
    returns 0 and leaves the world as it is. *)
Theorem defragment_leaves_oversized_block :
  reachable oversized_world
  ∧ pool_of oversized_world 4 = Some (mkPool (seq 100 49) [149%nat] 50 1)
  ∧ b_id (heap oversized_world !!! 149%nat) = "block_4_1149"
  ∧ (λ r, (r_block_id r, r_size r)) <$> last (allocation_history (manager oversized_world))
    = Some ("block_4_1149", 1)
  ∧ available <$> pool_of oversized_world 1 = Some [49%nat]
  ∧ _defragment_memory oversized_world = (Return 0, oversized_world).
Proof.
  split_and!; [by eexists _, _, _ | by vm_compute..].
Qed.

(** * Well-formed worlds *)

Lemma boot_heap_eq clk ent : heap (boot clk ent) = boot_heap ent.
Proof. lazy -[block_name Z.modulo Z.add Z.sub]. reflexivity. Qed.

Lemma boot_clock_reads clk ent : clock_reads (boot clk ent) = 1%nat.
Proof. by vm_compute. Qed.

Lemma nondecreasing_le clk m n : nondecreasing clk → (m ≤ n)%nat → (clk m <= clk n)%Q.
Proof.
  intros Hclk. induction 1 as [|n Hle IH]; [apply Qle_refl|].
  eapply Qle_trans; [exact IH | apply Hclk].
Qed.

Lemma StronglySorted_delete {A} (R : A → A → Prop) l i :
  StronglySorted R l → StronglySorted R (delete i l).
Proof.
  intros Hl. revert i. induction Hl as [|x l Hl IH Hx]; intros [|i]; simpl;
    [constructor | constructor | done |].
  constructor; [apply IH | by apply Forall_delete].
Qed.

Lemma stamps_ext h h' l :
  (∀ r, r ∈ l → h' !!! r = h !!! r) → stamps h' l = stamps h l.
Proof.
  intros H. unfold stamps. apply list_fmap_ext. intros i r Hr.
  rewrite H; [done|]. apply list_elem_of_lookup. eauto.
Qed.

Lemma stamps_app h l1 l2 : stamps h (l1 ++ l2) = stamps h l1 ++ stamps h l2.
Proof. unfold stamps. apply fmap_app. Qed.

Lemma stamps_delete h l i : stamps h (delete i l) = delete i (stamps h l).
Proof. unfold stamps. apply list_fmap_delete. Qed.

(** A pool stays well formed when the store changes elsewhere and the
    bound grows. *)
Lemma pool_wf_frame h h' bound bound' kp :
  pool_wf h bound kp →
  (∀ r, r ∈ available kp.2 ++ allocated kp.2 → h' !!! r = h !!! r) →
  length h' = length h →
  (bound <= bound')%Q →
  pool_wf h' bound' kp.
Proof.
  intros (Hnd & Hall & ts & Hts & Hsorted & Hbound) Hsame Hlen Hle. split_and!.
  - done.
  - apply Forall_forall. intros r Hr. rewrite Forall_forall in Hall.
    rewrite Hsame, Hlen by done. by apply Hall.
  - exists ts. split_and!; [|done|].
    + rewrite <- Hts. apply stamps_ext. intros r Hr. apply Hsame.
      apply elem_of_app. by right.
    + eapply Forall_impl; [exact Hbound|]. intros t Ht. simpl in *.
      by eapply Qle_trans.
Qed.

(** Blocks of different classes are different objects: the class is
    written in the block. *)
Lemma pool_wf_other_class h bound bound' k p k' p' r r' :
  pool_wf h bound (k, p) → pool_wf h bound' (k', p') → k ≠ k' →
  r ∈ available p ++ allocated p → r' ∈ available p' ++ allocated p' → r ≠ r'.
Proof.
  intros (_ & Hall & _) (_ & Hall' & _) Hne Hr Hr' ->.
  rewrite Forall_forall in Hall, Hall'.
  destruct (Hall _ Hr) as (_ & Hs & _). destruct (Hall' _ Hr') as (_ & Hs' & _).
  simpl in *. congruence.
Qed.

Lemma Forall_dict_set {V} (Q Q' : Z * V → Prop) k v (d : list (Z * V)) :
  NoDup (dict_keys d) →
  Forall Q d →
  (∀ kp, kp ∈ d → kp.1 ≠ k → Q kp → Q' kp) →
  Q' (k, v) →
  Forall Q' (dict_set k v d).
Proof.
  unfold dict_keys. intros Hnd Hd. revert Hnd.
  induction Hd as [|[k0 v0] d H0 Hd IH]; intros Hnd Himp Hv; simpl.
  - by repeat constructor.
  - rewrite fmap_cons in Hnd. apply NoDup_cons in Hnd as [Hk0 Hnd]. simpl in *.
    destruct (k =? k0) eqn:E.
    + apply Z.eqb_eq in E. subst k0. constructor; [done|].
      apply Forall_forall. intros [k' v'] Hin.
      rewrite Forall_forall in Hd. apply Himp; [by right | | by apply Hd].
      simpl. intros ->. apply Hk0. apply list_elem_of_fmap. by exists (k, v').
    + apply Z.eqb_neq in E. constructor.
      * apply Himp; [by left | simpl; congruence | done].
      * apply IH; [done | | done]. intros kp Hin. apply Himp. by right.
Qed.

Lemma wf_pool w k p : wf w → pool_of w k = Some p →
  pool_wf (heap w) (clock w (clock_reads w)) (k, p).
Proof.
  intros (_ & _ & Hall) Hp%dict_get_elem. rewrite Forall_forall in Hall. by apply Hall.
Qed.

Lemma wf_keys_NoDup w : wf w → NoDup (dict_keys (memory_pools (manager w))).
Proof. intros (_ & -> & _). apply pool_sizes_NoDup. Qed.

Lemma wf_allocate size priority : preserves wf (allocate_memory size priority).
Proof.
  intros w Hwf.
  destruct (allocate_memory_cases w size priority)
    as [[_ ->]|(k & p & r & rest & _ & Hp & Hav & ->)]; [done|].
  pose proof (wf_pool w k p Hwf Hp) as Hk.
  pose proof (wf_keys_NoDup w Hwf) as Hnd.
  destruct Hwf as (Hclk & Hkeys & Hall). cbn [snd].
  assert (Hc1 : (clock w (clock_reads w) <= clock w (S (clock_reads w)))%Q) by apply Hclk.
  assert (Hc2 : (clock w (S (clock_reads w)) <= clock w (S (S (clock_reads w))))%Q)
    by apply Hclk.
  split_and!; [done | by rewrite (keys_allocated_world _ _ _ _ _ _ _ Hp) |].
  simpl. eapply Forall_dict_set; [done | exact Hall | |].
  - intros [k' p'] Hin Hne Hwf'. simpl in Hne.
    eapply pool_wf_frame; [exact Hwf' | | by rewrite !length_alter |].
    + intros r' Hr'. rewrite !list_lookup_total_alter_ne; [done|..];
        eapply (pool_wf_other_class _ _ _ k p k' p'); eauto;
        try done; rewrite Hav; apply elem_of_app; left; apply elem_of_app; right; by left.
    + by eapply Qle_trans.
  - destruct Hk as (Hndk & Hallk & ts & Hts & Hsorted & Hbound). simpl in *.
    rewrite Hav in Hndk, Hallk.
    assert (Hperm : rest ++ allocated p ++ [r] ≡ₚ (rest ++ [r]) ++ allocated p).
    { rewrite <- !app_assoc. apply Permutation_app_head, Permutation_app_comm. }
    assert (Hr : (r < length (heap w))%nat).
    { rewrite Forall_forall in Hallk. apply (Hallk r).
      apply elem_of_app; left; apply elem_of_app; right; by left. }
    assert (Hfresh : r ∉ allocated p).
    { apply NoDup_app in Hndk as (_ & Hdisj & _). apply Hdisj.
      apply elem_of_app; right; by left. }
    split_and!; simpl.
    + by rewrite Hperm.
    + rewrite Hperm. eapply Forall_impl; [exact Hallk|].
      intros r' (Hlt & Hs & n & Hn). simpl in *.
      rewrite !length_alter, !b_size_alter, !b_id_alter by done. eauto.
    + exists (ts ++ [clock w (S (clock_reads w))]). split_and!.
      * rewrite stamps_app, fmap_app. f_equal.
        -- rewrite <- Hts. apply stamps_ext. intros r' Hr'.
           rewrite !list_lookup_total_alter_ne; [done|..]; by intros ->.
        -- simpl. by rewrite !list_lookup_total_alter_eq by (by rewrite ?length_alter).
      * apply StronglySorted_app_2; [|done|by repeat constructor].
        intros x1 x2 Hx1 ->%list_elem_of_singleton.
        rewrite Forall_forall in Hbound. eapply Qle_trans; [by apply Hbound | done].
      * apply Forall_app. split; [|by repeat constructor].
        eapply Forall_impl; [exact Hbound|]. intros t Ht. simpl in *.
        eapply Qle_trans; [exact Ht|]. by eapply Qle_trans.
Qed.

Lemma wf_deallocate block_id : preserves wf (deallocate_memory block_id).
Proof.
  intros w Hwf.
  destruct (deallocate_memory_cases w block_id)
    as [[_ ->]|(k & p & i & r & Hp & Hf & ->)]; [done|].
  apply list_find_Some in Hf as (Hi & _ & _).
  pose proof (wf_pool w k p Hwf Hp) as Hk.
  pose proof (wf_keys_NoDup w Hwf) as Hnd.
  destruct Hwf as (Hclk & Hkeys & Hall). cbn [snd].
  assert (Hin : r ∈ allocated p) by (apply list_elem_of_lookup; eauto).
  split_and!; [done | by rewrite (keys_deallocated_world _ _ _ _ _ Hp) |].
  simpl. eapply Forall_dict_set; [done | exact Hall | |].
  - intros [k' p'] Hin' Hne Hwf'. simpl in Hne.
    eapply pool_wf_frame; [exact Hwf' | | by rewrite !length_alter | apply Qle_refl].
    intros r' Hr'. rewrite !list_lookup_total_alter_ne; [done|..];
      eapply (pool_wf_other_class _ _ _ k p k' p'); eauto;
      apply elem_of_app; by right.
  - destruct Hk as (Hndk & Hallk & ts & Hts & Hsorted & Hbound). simpl in *.
    pose proof (delete_Permutation _ _ _ Hi) as Hdel.
    assert (Hperm : (available p ++ [r]) ++ delete i (allocated p)
                    ≡ₚ available p ++ allocated p).
    { rewrite <- app_assoc. apply Permutation_app_head. simpl. by rewrite <- Hdel. }
    assert (Hgone : r ∉ delete i (allocated p)).
    { apply NoDup_app in Hndk as (_ & _ & Hnda). rewrite Hdel in Hnda.
      by apply NoDup_cons in Hnda as [? _]. }
    split_and!; simpl.
    + by rewrite Hperm.
    + rewrite Hperm. eapply Forall_impl; [exact Hallk|].
      intros r' (Hlt & Hs & n & Hn). simpl in *.
      rewrite !length_alter, !b_size_alter, !b_id_alter by done. eauto.
    + exists (delete i ts). split_and!.
      * rewrite list_fmap_delete, <- Hts, <- stamps_delete. apply stamps_ext.
        intros r' Hr'. rewrite !list_lookup_total_alter_ne; [done|..]; by intros ->.
      * by apply StronglySorted_delete.
      * by apply Forall_delete.
Qed.

Lemma wf_time : preserves wf time_time.
Proof.
  intros w (Hclk & Hkeys & Hall). split_and!; [done..|]. simpl.
  eapply Forall_impl; [exact Hall|]. intros kp Hkp.
  eapply pool_wf_frame; [exact Hkp | done | done | apply Hclk].
Qed.

Lemma wf_randint a b : preserves wf (random_randint a b).
Proof. by intros w Hw. Qed.

Lemma wf_frame f : pools_frame f → preserves wf (modify (set_manager f)).
Proof. intros Hf w Hw. unfold wf in *. simpl. by rewrite Hf. Qed.

Lemma boot_heap_lookup ent r k :
  boot_classes !! r = Some k →
  (r < length (boot_heap ent))%nat
  ∧ boot_heap ent !!! r
    = mkBlock (block_name k (1000 + ent r `mod` (9999 - 1000 + 1))) k None None None.
Proof.
  intros Hr. unfold boot_heap. split.
  - rewrite length_imap. by eapply lookup_lt_Some.
  - apply list_lookup_total_correct. by rewrite list_lookup_imap, Hr.
Qed.

Lemma boot_pools_classes :
  Forall (λ kp : Z * Pool,
            Forall (λ r, boot_classes !! r = Some kp.1) (available kp.2)
            ∧ allocated kp.2 = [] ∧ NoDup (available kp.2))
    boot_pools.
Proof. apply (bool_decide_unpack _). by vm_compute. Qed.

Lemma wf_boot clk ent : nondecreasing clk → wf (boot clk ent).
Proof.
  intros Hclk. unfold wf.
  rewrite boot_clock, boot_memory_pools, boot_heap_eq, boot_clock_reads.
  split_and!; [done | done |].
  eapply Forall_impl; [exact boot_pools_classes|].
  intros [k p] (Hav & Hal & Hnd). simpl in *. unfold pool_wf. simpl.
  rewrite Hal, app_nil_r. split_and!; [done | |].
  - eapply Forall_impl; [exact Hav|]. intros r Hr. simpl in Hr.
    destruct (boot_heap_lookup ent r k Hr) as [Hlt ->]. simpl. eauto.
  - exists []. by repeat constructor.
Qed.

(** Every world reached under a clock that never steps back is well
    formed. *)
Lemma run_wf clk ent calls : nondecreasing clk → wf (run (boot clk ent) calls).
Proof.
  intros Hclk.
  apply preserves_run; auto using wf_allocate, wf_deallocate, wf_time, wf_randint,
    wf_frame, wf_boot.
Qed.

Lemma run_clock w calls : clock (run w calls) = clock w.
Proof.
  apply (preserves_run (λ w', clock w' = clock w)).
  - intros size priority w' Hw'.
    destruct (allocate_memory_cases w' size priority)
      as [[_ ->]|(k & p & r & rest & _ & _ & _ & ->)]; done.
  - intros block_id w' Hw'.
    destruct (deallocate_memory_cases w' block_id)
      as [[_ ->]|(k & p & i & r & _ & _ & ->)]; done.
  - by intros w' Hw'.
  - by intros a b w' Hw'.
  - by intros f _ w' Hw'.
  - done.
Qed.

Lemma reachable_wf w : reachable w → nondecreasing (clock w) → wf w.
Proof.
  intros (clk & ent & calls & ->) Hclk.
  rewrite run_clock, boot_clock in Hclk. by apply run_wf.
Qed.

(** ** Identifiers of different classes *)

Lemma string_app_assoc (a b c : string) : (a +:+ b) +:+ c = a +:+ b +:+ c.
Proof.
  induction a as [|x a IH]; [done|].
  change (String x ((a +:+ b) +:+ c) = String x (a +:+ b +:+ c)). by rewrite IH.
Qed.

Lemma block_name_tag k n : block_name k n = class_tag k +:+ pretty n.
Proof. unfold block_name, class_tag. by rewrite !string_app_assoc. Qed.

Lemma clash_app a b s s' : clash a b = true → a +:+ s ≠ b +:+ s'.
Proof.
  revert b. induction a as [|x a IH]; intros [|y b]; simpl; try done.
  destruct (Ascii.eqb x y) eqn:E.
  - intros Hc H. change (String x (a +:+ s) = String y (b +:+ s')) in H.
    injection H as _ H. by eapply IH.
  - intros _ H. change (String x (a +:+ s) = String y (b +:+ s')) in H.
    injection H as -> _. by rewrite Ascii.eqb_refl in E.
Qed.

Lemma class_tags_clash :
  Forall (λ k, Forall (λ k', k = k' ∨ clash (class_tag k) (class_tag k') = true) pool_sizes)
    pool_sizes.
Proof. apply (bool_decide_unpack _). by vm_compute. Qed.

Lemma block_name_class k k' n n' :
  k ∈ pool_sizes → k' ∈ pool_sizes → block_name k n = block_name k' n' → k = k'.
Proof.
  intros Hk Hk' Heq. pose proof class_tags_clash as H.
  rewrite Forall_forall in H. specialize (H k Hk).
  rewrite Forall_forall in H. destruct (H k' Hk') as [?|Hc]; [done|].
  rewrite !block_name_tag in Heq. by apply clash_app in Heq.
Qed.

(** ** Defragmentation of a well-formed world *)

Lemma pool_sizes_bounds k : k ∈ pool_sizes → 0 < k ≤ 512.
Proof.
  intros Hk. assert (H : Forall (λ k, 0 < k ≤ 512) pool_sizes).
  { apply (bool_decide_unpack _). by vm_compute. }
  rewrite Forall_forall in H. by apply H.
Qed.

Lemma wf_key w k p : wf w → pool_of w k = Some p → k ∈ pool_sizes.
Proof.
  intros (_ & <- & _) Hp. apply dict_get_is_Some. unfold pool_of in Hp. by rewrite Hp.
Qed.

Lemma for_acc_skip {A S} (xs : list A) (body : S → A → M S) acc w :
  (∀ x s, x ∈ xs → body s x w = (Return s, w)) →
  for_acc xs body acc w = (Return acc, w).
Proof.
  induction xs as [|x xs IH]; intros H; [done|].
  rewrite for_acc_cons, H by (by left). apply IH. intros x' s Hx'. apply H. by right.
Qed.

Lemma defragment_block_skip w k p count r :
  wf w → pool_of w k = Some p → r ∈ allocated p →
  defragment_block k count r w = (Return count, w).
Proof.
  intros Hwf Hp Hr. destruct (wf_pool w k p Hwf Hp) as (_ & Hall & _).
  rewrite Forall_forall in Hall. destruct (Hall r) as (_ & Hs & _).
  { apply elem_of_app. by right. }
  pose proof (pool_sizes_bounds k (wf_key w k p Hwf Hp)). simpl in Hs.
  unfold defragment_block. munfold. cbv beta. rewrite Hs.
  destruct (2 * k <? k) eqn:E; [apply Z.ltb_lt in E; lia | done].
Qed.

(** In a well-formed world no block passes the test of the defragmenter:
    the size written in a block is the size of its class. *)
Lemma defragment_noop w : wf w → _defragment_memory w = (Return 0, w).
Proof.
  intros Hwf. unfold _defragment_memory. munfold.
  rewrite for_acc_skip; [done|].
  intros k s Hk. apply dict_get_is_Some in Hk as [p Hp].
  unfold defragment_pool. munfold. rewrite Hp.
  apply for_acc_skip. intros r c Hr. by eapply defragment_block_skip.
Qed.

(** ** The sweep of one size class *)

Lemma collect_block_fresh w k now c r :
  is_Some (b_last_access (heap w !!! r)) → idle (heap w) k now r ≠ true →
  collect_block k now c r w = (Return c, w).
Proof.
  unfold idle, collect_block. munfold. cbv beta. intros [last ->] Hidle.
  by destruct (Qgt_bool (now - last) (gc_timeout k)).
Qed.

(** Freeing the first allocated block of a class by its identifier frees
    that very block: an identifier names its class, and the scan of a
    class stops at the first match. *)
Lemma deallocate_head w k p x l :
  wf w → pool_of w k = Some p → allocated p = x :: l →
  deallocate_memory (b_id (heap w !!! x)) w = (Return true, deallocated_world w k p 0 x).
Proof.
  intros Hwf Hp Hal.
  destruct (deallocate_memory_cases w (b_id (heap w !!! x)))
    as [[Hno _]|(k1 & p1 & i & r1 & Hp1 & Hf & ->)].
  { exfalso. apply Hno. exists k, p, x. rewrite Hal. split_and!; [done | by left | done]. }
  apply list_find_Some in Hf as (Hi & Hid & Hfirst).
  destruct (wf_pool w k p Hwf Hp) as (_ & Hall & _).
  destruct (wf_pool w k1 p1 Hwf Hp1) as (_ & Hall1 & _).
  rewrite Forall_forall in Hall, Hall1. simpl in *.
  destruct (Hall x) as (_ & _ & n & Hn); [rewrite Hal; apply elem_of_app; right; by left|].
  destruct (Hall1 r1) as (_ & _ & n1 & Hn1).
  { apply elem_of_app. right. apply list_elem_of_lookup. eauto. }
  assert (k1 = k) as ->.
  { eapply block_name_class; [by eapply wf_key | by eapply wf_key |].
    by rewrite <- Hn1, <- Hn. }
  assert (p1 = p) as -> by congruence.
  rewrite Hal in Hi, Hfirst.
  destruct i as [|i].
  - simpl in Hi. by injection Hi as <-.
  - exfalso. apply (Hfirst 0%nat x); [done | lia | done].
Qed.

Lemma collect_block_idle w k p now c x l :
  wf w → pool_of w k = Some p → allocated p = x :: l →
  idle (heap w) k now x = true →
  collect_block k now c x w = (Return (c + 1), deallocated_world w k p 0 x).
Proof.
  intros Hwf Hp Hal Hidle. unfold idle in Hidle. unfold collect_block. munfold. cbv beta.
  destruct (b_last_access (heap w !!! x)) as [last|]; [|done].
  rewrite Hidle, (deallocate_head w k p x l) by done. done.
Qed.

(** Along a list of blocks in the order of their last access, every block
    after one that is not idle is not idle either. *)
Lemma sorted_stamps_fresh h k now x l ts :
  stamps h (x :: l) = Some <$> ts → StronglySorted Qle ts →
  idle h k now x ≠ true →
  ∀ r, r ∈ l → is_Some (b_last_access (h !!! r)) ∧ idle h k now r ≠ true.
Proof.
  destruct ts as [|t0 ts]; [done|]. unfold stamps. rewrite !fmap_cons.
  intros [= Hx Hl] [Hle _]%StronglySorted_cons Hidle r Hr.
  apply list_elem_of_lookup in Hr as [j Hj].
  assert (Hrj : ((λ r, b_last_access (h !!! r)) <$> l) !! j = Some (b_last_access (h !!! r)))
    by (by rewrite list_lookup_fmap, Hj).
  rewrite Hl, list_lookup_fmap in Hrj.
  destruct (ts !! j) as [t|] eqn:Ht; [|done]. simpl in Hrj. injection Hrj as Hr.
  rewrite Forall_forall in Hle.
  assert (Ht0 : (t0 <= t)%Q) by (apply Hle, list_elem_of_lookup; eauto).
  split; [by rewrite <- Hr|].
  unfold idle in *. rewrite Hx in Hidle. rewrite <- Hr.
  apply not_true_is_false in Hidle. apply Qgt_bool_false in Hidle.
  apply not_true_iff_false, Qgt_bool_false. lra.
Qed.

Lemma filter_none {A} (P : A → Prop) `{∀ x, Decision (P x)} (l : list A) :
  (∀ x, x ∈ l → ¬ P x) → filter P l = [].
Proof.
  induction l as [|x l IH]; intros Hl; [done|].
  rewrite filter_cons_False by (apply Hl; by left). apply IH. intros y Hy. apply Hl. by right.
Qed.

Lemma filter_all {A} (P : A → Prop) `{∀ x, Decision (P x)} (l : list A) :
  (∀ x, x ∈ l → P x) → filter P l = l.
Proof.
  induction l as [|x l IH]; intros Hl; [done|].
  rewrite filter_cons_True by (apply Hl; by left). f_equal. apply IH.
  intros y Hy. apply Hl. by right.
Qed.

Lemma sweep_pool k now h0 l :
  ∀ w p c,
    wf w → pool_of w k = Some p → allocated p = l →
    (∀ r, r ∈ l → heap w !!! r = h0 !!! r) →
    ∃ w' p',
      for_acc l (collect_block k now) c w
      = (Return (c + Z.of_nat (length (filter (λ r, idle h0 k now r = true) l))), w')
      ∧ wf w' ∧ gauges w' = gauges w
      ∧ pool_of w' k = Some p'
      ∧ allocated p' = filter (λ r, idle h0 k now r ≠ true) l
      ∧ available p' = available p ++ filter (λ r, idle h0 k now r = true) l
      ∧ (∀ k', k' ≠ k → pool_of w' k' = pool_of w k')
      ∧ (∀ r, r ∉ filter (λ r, idle h0 k now r = true) l → heap w' !!! r = heap w !!! r)
      ∧ (∀ r, r ∈ filter (λ r, idle h0 k now r = true) l →
              b_allocated_at (heap w' !!! r) = None ∧ b_last_access (heap w' !!! r) = None).
Proof.
  induction l as [|x l IH]; intros w p c Hwf Hp Hal Hh0.
  - exists w, p. simpl. rewrite Z.add_0_r, Hal, app_nil_r.
    split_and!; try done. by intros r ?%elem_of_nil.
  - destruct (wf_pool w k p Hwf Hp) as (Hnd & Hall & ts & Hts & Hsorted & _).
    simpl in Hnd, Hall, Hts. rewrite Hal in Hts.
    assert (Hx : heap w !!! x = h0 !!! x) by (apply Hh0; by left).
    assert (Hfresh : x ∉ l).
    { apply NoDup_app in Hnd as (_ & _ & Hnd). rewrite Hal in Hnd.
      by apply NoDup_cons in Hnd as [? _]. }
    destruct (idle h0 k now x) eqn:Hidle.
    + assert (Hidlew : idle (heap w) k now x = true).
      { unfold idle in *. by rewrite Hx. }
      pose proof (deallocate_head w k p x l Hwf Hp Hal) as Hdealloc.
      pose proof (wf_deallocate (b_id (heap w !!! x)) w Hwf) as Hwf1. rewrite Hdealloc in Hwf1. cbn [snd] in Hwf1.
      set (w1 := deallocated_world w k p 0 x) in *.
      set (p1 := mkPool (available p ++ [x]) (delete 0%nat (allocated p))
                   (total_blocks p) (used_blocks p - 1)).
      assert (Hp1 : pool_of w1 k = Some p1).
      { unfold w1. rewrite pool_of_deallocated_world. by case_decide. }
      assert (Hal1 : allocated p1 = l) by (unfold p1; simpl; by rewrite Hal).
      destruct (IH w1 p1 (c + 1) Hwf1 Hp1 Hal1)
        as (w' & p' & Hrun & Hwf' & Hg & Hp' & Hal' & Hav' & Hother & Hkeep & Hclear).
      { intros r Hr. unfold w1. simpl.
        rewrite !list_lookup_total_alter_ne by (by intros ->). apply Hh0. by right. }
      subst w1 p1. exists w', p'.
      rewrite for_acc_cons, (collect_block_idle w k p now c x l Hwf Hp Hal Hidlew).
      rewrite filter_cons_True by done.
      rewrite filter_cons_False by (by rewrite Hidle; intros ?).
      cbv beta iota. split_and!; try done.
      * rewrite Hrun. f_equal. f_equal. simpl length. lia.
      * rewrite Hav'. simpl. by rewrite <- app_assoc.
      * intros k' Hne. rewrite Hother by done.
        rewrite pool_of_deallocated_world. by case_decide.
      * intros r Hr. apply not_elem_of_cons in Hr as [Hne Hr].
        rewrite Hkeep by done. simpl.
        by rewrite !list_lookup_total_alter_ne.
      * intros r [->|Hr]%elem_of_cons; [|by apply Hclear].
        rewrite Hkeep.
        -- apply cleared_timestamps.
        -- intros [_ ?]%list_elem_of_filter. done.
    + assert (Hidlew : idle (heap w) k now x ≠ true).
      { unfold idle in *. rewrite Hx, Hidle. done. }
      assert (Hx_some : is_Some (b_last_access (heap w !!! x))).
      { destruct ts as [|t0 ts0]; [done|]. unfold stamps in Hts.
        rewrite !fmap_cons in Hts. injection Hts as -> _. eauto. }
      pose proof (sorted_stamps_fresh _ k now x l ts Hts Hsorted Hidlew) as Hrest.
      assert (Hnone : ∀ r, r ∈ x :: l → ¬ idle h0 k now r = true).
      { intros r [->|Hr]%elem_of_cons; [by rewrite Hidle|].
        destruct (Hrest r Hr) as [_ Hr']. unfold idle in *.
        rewrite <- Hh0 by (by right). done. }
      exists w, p.
      rewrite (filter_none _ _ Hnone), (filter_all _ _ Hnone).
      change (Z.of_nat (length (@nil nat))) with 0. rewrite Z.add_0_r, app_nil_r.
      split_and!; try done; [|by intros r ?%elem_of_nil].
      apply for_acc_skip. intros r s [->|Hr]%elem_of_cons.
      * by apply collect_block_fresh.
      * destruct (Hrest r Hr). by apply collect_block_fresh.
Qed.

Lemma filter_ext_in {A} (P Q : A → Prop) `{∀ x, Decision (P x)} `{∀ x, Decision (Q x)}
    (l : list A) :
  (∀ x, x ∈ l → P x ↔ Q x) → filter P l = filter Q l.
Proof.
  induction l as [|x l IH]; intros Hl; [done|].
  rewrite !filter_cons, IH by (intros y Hy; apply Hl; by right).
  destruct (decide (P x)) as [HP|HP], (decide (Q x)) as [HQ|HQ]; try done;
    exfalso; apply (Hl x) in HP || apply (Hl x) in HQ; try done; by left.
Qed.

Lemma idle_ext h h' k now r : h' !!! r = h !!! r → idle h' k now r = idle h k now r.
Proof. unfold idle. by intros ->. Qed.

Lemma collect_pool_run w k p c :
  wf w → pool_of w k = Some p →
  ∃ w',
    collect_pool c k w
    = (Return (c + Z.of_nat (length (idle_refs w k (clock w (clock_reads w))))), w')
    ∧ wf w' ∧ clock w' = clock w ∧ clock_reads w' = S (clock_reads w)
    ∧ memory_pressure (manager w') = memory_pressure (manager w)
    ∧ gc_threshold (manager w') = gc_threshold (manager w)
    ∧ swept w w' k (clock w (clock_reads w))
    ∧ (∀ k', k' ≠ k → pool_of w' k' = pool_of w k')
    ∧ (∀ r, r ∉ allocated p → heap w' !!! r = heap w !!! r).
Proof.
  intros Hwf Hp. pose proof (wf_time w Hwf) as Hwf1.
  set (now := clock w (clock_reads w)).
  assert (Heq : collect_pool c k w
                = for_acc (allocated p) (collect_block k now) c (time_time w).2).
  { unfold collect_pool, getitem, mbind, M_bind. unfold pool_of in Hp. by rewrite Hp. }
  assert (Hrefs : idle_refs w k now = filter (λ r, idle (heap w) k now r = true) (allocated p)).
  { unfold idle_refs. by rewrite Hp. }
  destruct (sweep_pool k now (heap w) (allocated p) (time_time w).2 p c Hwf1 Hp eq_refl)
    as (w' & p' & Hrun & Hwf' & Hg & Hp' & Hal' & Hav' & Hother & Hkeep & Hclear);
    [done|].
  destruct (wf_pool w k p Hwf Hp) as (Hnd & _). simpl in Hnd.
  injection Hg as Hclock Hreads Hpressure Hthreshold.
  exists w'. rewrite Heq, Hrefs.
  split_and!; [done..| | done |].
  - exists p, p'. split_and!; try done.
    + intros r Hr Hidle.
      assert (Hin : r ∈ filter (λ r, idle (heap w) k now r = true) (allocated p))
        by (by apply list_elem_of_filter).
      split_and!; [rewrite Hav'; apply elem_of_app; by right | | by apply Hclear..].
      rewrite Hal'. intros [? _]%list_elem_of_filter. done.
    + intros r Hr Hidle. split_and!.
      * rewrite Hal'. by apply list_elem_of_filter.
      * rewrite Hav'. intros [Hin|[? _]%list_elem_of_filter]%elem_of_app; [|done].
        apply NoDup_app in Hnd as (_ & Hdisj & _). by apply (Hdisj r).
      * rewrite Hkeep; [done|]. intros [? _]%list_elem_of_filter. done.
  - intros r Hr. rewrite Hkeep; [done|]. intros [_ ?]%list_elem_of_filter. done.
Qed.

(** ** The sweep of all size classes *)

Lemma swept_then_untouched w w1 w2 k now :
  swept w w1 k now → untouched w1 w2 k → swept w w2 k now.
Proof.
  intros (p & p1 & Hp & Hp1 & Hal & Hav & Hidle & Hfresh) [Hpool Hheap].
  exists p, p1. rewrite Hpool. split_and!; try done.
  - intros r Hr Hi. destruct (Hidle r Hr Hi) as (Hin & Hout & Ha & Hl).
    rewrite (Hheap p1 r Hp1) by (apply elem_of_app; by left). done.
  - intros r Hr Hi. destruct (Hfresh r Hr Hi) as (Hin & Hout & Hsame).
    rewrite (Hheap p1 r Hp1) by (apply elem_of_app; by right). done.
Qed.

Lemma untouched_then_swept w w1 w2 k now :
  untouched w w1 k → swept w1 w2 k now → swept w w2 k now.
Proof.
  intros [Hpool Hheap] (p & p2 & Hp & Hp2 & Hal & Hav & Hidle & Hfresh).
  rewrite Hpool in Hp. exists p, p2.
  assert (Hsame : ∀ r, r ∈ allocated p → idle (heap w1) k now r = idle (heap w) k now r).
  { intros r Hr. apply idle_ext, (Hheap p r Hp), elem_of_app. by right. }
  split_and!; try done.
  - rewrite Hal. apply filter_ext_in. intros r Hr. by rewrite Hsame.
  - rewrite Hav. f_equal. apply filter_ext_in. intros r Hr. by rewrite Hsame.
  - intros r Hr Hi. apply Hidle; [done | by rewrite Hsame].
  - intros r Hr Hi. destruct (Hfresh r Hr) as (Hin & Hout & Heq); [by rewrite Hsame|].
    split_and!; [done..|]. rewrite Heq. apply (Hheap p r Hp), elem_of_app. by right.
Qed.

Lemma untouched_trans w w1 w2 k : untouched w w1 k → untouched w1 w2 k → untouched w w2 k.
Proof.
  intros [Hpool Hheap] [Hpool' Hheap']. split; [congruence|].
  intros p r Hp Hr. rewrite (Hheap' p r), (Hheap p r); try done. congruence.
Qed.

Lemma idle_refs_untouched w w1 k now :
  untouched w w1 k → idle_refs w1 k now = idle_refs w k now.
Proof.
  intros [Hpool Hheap]. unfold idle_refs. rewrite Hpool.
  destruct (pool_of w k) as [p|] eqn:Hp; [|done].
  apply filter_ext_in. intros r Hr. rewrite (idle_ext (heap w)); [done|].
  apply (Hheap p r eq_refl), elem_of_app. by right.
Qed.

Lemma reclaimed_untouched w w1 n ks :
  clock w1 = clock w → (∀ k, k ∈ ks → untouched w w1 k) →
  reclaimed w1 n ks = reclaimed w n ks.
Proof.
  intros Hclock. revert n. induction ks as [|k ks IH]; intros n Hks; [done|].
  simpl. rewrite Hclock, (idle_refs_untouched w w1 k) by (apply Hks; by left).
  rewrite IH; [done|]. intros k' Hk'. apply Hks. by right.
Qed.

(** The sweep of one class leaves the other classes alone. *)
Lemma collect_pool_untouched w w' k p k' :
  wf w → pool_of w k = Some p → k' ∈ pool_sizes → k' ≠ k →
  (∀ k', k' ≠ k → pool_of w' k' = pool_of w k') →
  (∀ r, r ∉ allocated p → heap w' !!! r = heap w !!! r) →
  untouched w w' k'.
Proof.
  intros Hwf Hp Hk' Hne Hother Hkeep. split; [by apply Hother|].
  intros p' r Hp' Hr. apply Hkeep. intros Hin.
  eapply (pool_wf_other_class _ _ _ k p k' p' r r);
    eauto using wf_pool. apply elem_of_app. by right.
Qed.

Lemma collect_pools_run ks :
  ∀ w c,
    wf w → NoDup ks → (∀ k, k ∈ ks → k ∈ pool_sizes) →
    ∃ w',
      for_acc ks collect_pool c w = (Return (c + reclaimed w (clock_reads w) ks), w')
      ∧ wf w' ∧ clock w' = clock w ∧ clock_reads w' = (clock_reads w + length ks)%nat
      ∧ memory_pressure (manager w') = memory_pressure (manager w)
      ∧ gc_threshold (manager w') = gc_threshold (manager w)
      ∧ (∀ i k, ks !! i = Some k → swept w w' k (clock w (clock_reads w + i)))
      ∧ (∀ k, k ∈ pool_sizes → k ∉ ks → untouched w w' k).
Proof.
  induction ks as [|k ks IH]; intros w c Hwf Hnd Hks.
  - exists w. simpl. rewrite Z.add_0_r, Nat.add_0_r. split_and!; try done.
  - apply NoDup_cons in Hnd as [Hk Hnd].
    assert (Hkin : k ∈ pool_sizes) by (apply Hks; by left).
    assert (is_Some (pool_of w k)) as [p Hp].
    { apply dict_get_is_Some. destruct Hwf as (_ & -> & _). done. }
    destruct (collect_pool_run w k p c Hwf Hp)
      as (w1 & Hrun1 & Hwf1 & Hclock1 & Hreads1 & Hpr1 & Hth1 & Hswept1 & Hother1 & Hkeep1).
    destruct (IH w1 (c + Z.of_nat (length (idle_refs w k (clock w (clock_reads w))))) Hwf1 Hnd)
      as (w' & Hrun & Hwf' & Hclock & Hreads & Hpr & Hth & Hswept & Huntouched).
    { intros k' Hk'. apply Hks. by right. }
    assert (Hleft : ∀ k', k' ∈ pool_sizes → k' ≠ k → untouched w w1 k').
    { intros k' Hk' Hne. by eapply collect_pool_untouched. }
    exists w'. rewrite for_acc_cons, Hrun1, Hrun. split_and!.
    + f_equal. f_equal. simpl. rewrite Hreads1.
      rewrite (reclaimed_untouched w w1); [lia | done |].
      intros k' Hk'. apply Hleft; [apply Hks; by right | by intros ->].
    + done.
    + congruence.
    + rewrite Hreads, Hreads1. simpl. lia.
    + congruence.
    + congruence.
    + intros [|i] k' Hi; simpl in Hi.
      * injection Hi as <-. rewrite Nat.add_0_r.
        eapply swept_then_untouched; [exact Hswept1|]. by apply Huntouched.
      * eapply untouched_then_swept.
        -- apply Hleft; [apply Hks; right | intros ->; apply Hk];
             apply list_elem_of_lookup; eauto.
        -- specialize (Hswept i k' Hi). rewrite Hclock1, Hreads1 in Hswept.
           by replace (clock_reads w + S i)%nat with (S (clock_reads w) + i)%nat by lia.
    + intros k' Hk' Hnot. apply not_elem_of_cons in Hnot as [Hne Hnot].
      eapply untouched_trans; [by apply Hleft | by apply Huntouched].
Qed.

(** ** A cycle of the garbage collector *)


Lemma reclaimed_ext w v n ks :
  (∀ k, pool_of v k = pool_of w k) → heap v = heap w → clock v = clock w →
  reclaimed v n ks = reclaimed w n ks.
Proof.
  intros Hp Hh Hc. revert n. induction ks as [|k ks IH]; intros n; [done|].
  simpl. unfold idle_refs. by rewrite Hp, Hh, Hc, IH.
Qed.



Lemma minute_clock_nondecreasing : nondecreasing minute_clock.
Proof. intros n. unfold minute_clock. rewrite <- Zle_Qle. lia. Qed.

Lemma two_blocks_world_reachable : reachable two_blocks_world.
Proof. by eexists _, _, _. Qed.

Lemma two_blocks_world_clock : nondecreasing (clock two_blocks_world).
Proof.
  unfold two_blocks_world. rewrite run_clock, boot_clock.
  apply minute_clock_nondecreasing.
Qed.



(** ** The claims at concrete worlds *)

Lemma pool_of_boot clk ent k : pool_of (boot clk ent) k = dict_get k boot_pools.
Proof. unfold pool_of. by rewrite boot_memory_pools. Qed.

Lemma boot_nothing_allocated clk ent block_id : ¬ is_allocated (boot clk ent) block_id.
Proof.
  intros (k & p & r & Hp & Hr & _).
  rewrite pool_of_boot in Hp. apply dict_get_elem in Hp.
  pose proof boot_pools_classes as H. rewrite Forall_forall in H.
  destruct (H _ Hp) as (_ & Hal & _). simpl in Hal. rewrite Hal in Hr.
  by apply elem_of_nil in Hr.
Qed.

Lemma reachable_keys w k p : reachable w → pool_of w k = Some p → k ∈ pool_sizes.
Proof.
  intros [Hkeys _]%reachable_pools_ok Hp. rewrite <- Hkeys.
  apply dict_get_is_Some. unfold pool_of in Hp. by rewrite Hp.
Qed.

Lemma allocate_memory_out_of_memory_witness :
  allocate_memory 600 "low" demo_world = (Return None, demo_world).
Proof.
  destruct (allocate_memory_out_of_memory demo_world 600 "low") as ([_ Hnone] & Hsame & _).
  assert (H : (allocate_memory 600 "low" demo_world).1 = Return None).
  { apply Hnone. intros k p Hp Hle.
    pose proof (pool_sizes_bounds k (reachable_keys _ _ _ reachable_demo_world Hp)). lia. }
  specialize (Hsame H).
  destruct (allocate_memory 600 "low" demo_world) as [o w']. simpl in *. by subst.
Defined.

Lemma allocate_memory_best_fit_witness :
  ∃ w', allocate_memory 3 "high" (boot demo_clock demo_entropy)
        = (Return (Some "block_4_1149"), w')
        ∧ pool_of w' 4 = Some (mkPool (seq 100 49) [149%nat] 50 1).
Proof.
  destruct allocate_memory_best_fit as [Hgeneral _].
  assert (Hp : pool_of (boot demo_clock demo_entropy) 4 = Some (mkPool (seq 100 50) [] 50 0))
    by (by vm_compute).
  destruct (Hgeneral (boot demo_clock demo_entropy) 3 "high" 4)
    as (p & r & rest & w' & Hp' & Hav & Hrun & Hpool & _).
  { split.
    - eexists. split; [exact Hp|]. split; [lia | done].
    - intros k' (p' & Hk' & Hle & _).
      pose proof (reachable_keys _ _ _ (reachable_boot _ _) Hk') as Hin.
      unfold pool_sizes in Hin. rewrite !elem_of_cons in Hin.
      destruct Hin as [->|[->|[->|[->|[->|[->|[->|[->|[->|[->|Hin]]]]]]]]]];
        try lia. apply elem_of_nil in Hin. destruct Hin. }
  rewrite Hp in Hp'. injection Hp' as <-. cbn [available] in Hav.
  assert (Hlast : seq 100 49 ++ [149%nat] = rest ++ [r]) by exact Hav.
  apply app_inj_tail in Hlast as [<- <-].
  exists w'. split; [|exact Hpool].
  rewrite Hrun. f_equal.
Defined.

Lemma deallocate_memory_spec_witness :
  ∃ w1 w2,
    allocate_memory 1 "normal" (boot demo_clock demo_entropy)
    = (Return (Some "block_1_1049"), w1)
    ∧ deallocate_memory "block_1_1049" w1 = (Return true, w2)
    ∧ deallocate_memory "block_1_1049" w2 = (Return false, w2).
Proof.
  destruct (deallocate_memory_spec (boot demo_clock demo_entropy) "block_1_1049")
    as (_ & _ & _ & Htwice).
  assert (Halloc : allocate_memory 1 "normal" (boot demo_clock demo_entropy)
                   = (Return (Some "block_1_1049"),
                      (allocate_memory 1 "normal" (boot demo_clock demo_entropy)).2))
    by (by vm_compute).
  destruct (Htwice 1 "normal" _ (boot_nothing_allocated _ _ _) Halloc) as (w2 & H1 & H2).
  eauto.
Defined.

(** * Further properties of the methods *)

(** ** The blocks of [__init__] are conserved *)

Lemma Forall_pool_conserved (d : list (Z * Pool)) k p :
  Forall pool_conserved d → dict_get k d = Some p → pool_conserved (k, p).
Proof. intros Hd Hp%dict_get_elem. rewrite Forall_forall in Hd. by apply Hd. Qed.

Lemma dict_set_pool_conserved (d : list (Z * Pool)) k p :
  Forall pool_conserved d → pool_conserved (k, p) → Forall pool_conserved (dict_set k p d).
Proof.
  intros Hd Hp. induction Hd as [|[k0 p0] d H0 Hd IH]; cbn [dict_set].
  - by repeat constructor.
  - destruct (k =? k0); constructor; auto.
Qed.

Lemma conserved_allocate size priority : preserves conserved (allocate_memory size priority).
Proof.
  intros w (Hkeys & Hlen & Hblocks & Hpools).
  destruct (allocate_memory_cases w size priority)
    as [[_ ->]|(k & p & r & rest & _ & Hp & Hav & ->)]; [done|].
  cbn [snd]. split_and!.
  - by rewrite keys_allocated_world.
  - simpl. by rewrite !length_alter.
  - intros r'. simpl. rewrite !b_id_alter, !b_size_alter by done. apply Hblocks.
  - simpl. apply dict_set_pool_conserved; [done|].
    destruct (Forall_pool_conserved _ _ _ Hpools Hp) as (p0 & Hp0 & Hperm).
    cbn [fst snd] in Hp0, Hperm.
    exists p0. split; [done|]. cbn [fst snd available allocated]. rewrite <- Hperm, Hav.
    rewrite <- !(assoc_L (++)). f_equiv. apply Permutation_app_comm.
Qed.

Lemma conserved_deallocate block_id : preserves conserved (deallocate_memory block_id).
Proof.
  intros w (Hkeys & Hlen & Hblocks & Hpools).
  destruct (deallocate_memory_cases w block_id)
    as [[_ ->]|(k & p & i & r & Hp & Hf & ->)]; [done|].
  apply list_find_Some in Hf as (Hi & _ & _).
  cbn [snd]. split_and!.
  - by rewrite keys_deallocated_world.
  - simpl. by rewrite !length_alter.
  - intros r'. simpl. rewrite !b_id_alter, !b_size_alter by done. apply Hblocks.
  - simpl. apply dict_set_pool_conserved; [done|].
    destruct (Forall_pool_conserved _ _ _ Hpools Hp) as (p0 & Hp0 & Hperm).
    cbn [fst snd] in Hp0, Hperm.
    exists p0. split; [done|]. cbn [fst snd available allocated]. rewrite <- Hperm.
    rewrite <- (assoc_L (++)). f_equiv.
    by rewrite (delete_Permutation (allocated p) i r Hi) at 2.
Qed.

Lemma conserved_boot clk ent : conserved (boot clk ent).
Proof.
  unfold conserved. rewrite boot_memory_pools, boot_heap_eq.
  assert (entropy (boot clk ent) = ent) as -> by (by vm_compute).
  split_and!; [done | done | done |].
  apply Forall_forall. intros [k p] Hin. exists p. split; [|].
  - apply dict_get_NoDup; [|done]. apply (bool_decide_unpack _). by vm_compute.
  - assert (H : Forall (λ kp : Z * Pool, allocated kp.2 = []) boot_pools).
    { apply (bool_decide_unpack _). by vm_compute. }
    rewrite Forall_forall in H. pose proof (H _ Hin) as Ha.
    cbn [fst snd] in *. by rewrite Ha, app_nil_r.
Qed.

Lemma reachable_conserved w : reachable w → conserved w.
Proof.
  intros (clk & ent & calls & ->).
  apply preserves_run; auto using conserved_allocate, conserved_deallocate, conserved_boot.
  - by intros w Hw.
  - by intros a b w Hw.
  - intros f Hf w Hw. unfold conserved in *. simpl. by rewrite Hf.
Qed.

Lemma boot_classes_length : length boot_classes = 330%nat.
Proof. by vm_compute. Qed.

Lemma boot_heap_length ent : length (boot_heap ent) = 330%nat.
Proof. unfold boot_heap. by rewrite length_imap, boot_classes_length. Qed.

Lemma conserved_class w k p r :
  conserved w → pool_of w k = Some p → r ∈ available p ++ allocated p →
  boot_classes !! r = Some k.
Proof.
  intros (_ & _ & _ & Hpools) Hp Hr.
  destruct (Forall_pool_conserved _ _ _ Hpools Hp) as (p0 & Hp0 & Hperm).
  cbn [fst snd] in Hp0, Hperm. rewrite Hperm in Hr.
  apply dict_get_elem in Hp0.
  pose proof boot_pools_classes as H. rewrite Forall_forall in H.
  destruct (H _ Hp0) as (Hav & _). cbn [fst snd] in Hav.
  rewrite Forall_forall in Hav. by apply Hav.
Qed.

Lemma conserved_block w k p r :
  conserved w → pool_of w k = Some p → r ∈ available p ++ allocated p →
  (r < length (heap w))%nat
  ∧ b_size (heap w !!! r) = k
  ∧ b_id (heap w !!! r) = block_name k (1000 + entropy w r `mod` (9999 - 1000 + 1)).
Proof.
  intros Hc Hp Hr. pose proof (conserved_class w k p r Hc Hp Hr) as Hk.
  destruct Hc as (_ & Hlen & Hblocks & _).
  destruct (boot_heap_lookup (entropy w) r k Hk) as [Hlt Heq].
  destruct (Hblocks r) as [Hid Hsize]. rewrite Heq in Hid, Hsize.
  rewrite Hlen. done.
Qed.

Lemma conserved_key w k p : conserved w → pool_of w k = Some p → k ∈ pool_sizes.
Proof.
  intros (<- & _) Hp. apply dict_get_is_Some. unfold pool_of in Hp. by rewrite Hp.
Qed.

(** The defragmenter on the blocks of a world whose blocks are those of
    [__init__]. *)
Lemma defragment_block_same_size w k p count r :
  conserved w → pool_of w k = Some p → r ∈ allocated p →
  defragment_block k count r w = (Return count, w).
Proof.
  intros Hc Hp Hr.
  destruct (conserved_block w k p r Hc Hp) as (_ & Hs & _).
  { apply elem_of_app. by right. }
  pose proof (pool_sizes_bounds k (conserved_key w k p Hc Hp)).
  unfold defragment_block. munfold. cbv beta. rewrite Hs.
  destruct (2 * k <? k) eqn:E; [apply Z.ltb_lt in E; lia | done].
Qed.

Lemma defragment_conserved w : conserved w → _defragment_memory w = (Return 0, w).
Proof.
  intros Hc. unfold _defragment_memory. munfold.
  rewrite for_acc_skip; [done|].
  intros k s Hk. apply dict_get_is_Some in Hk as [p Hp].
  unfold defragment_pool. munfold. rewrite Hp.
  apply for_acc_skip. intros r c Hr. by eapply defragment_block_same_size.
Qed.

(** X2. Blocks are neither created nor destroyed after [__init__], and no
    block ever changes its size class: in every reachable world the store
    holds 330 blocks, and the pool of a class holds, in some order and
    without repetition, exactly the references it was given by [__init__];
    each of its blocks has the size of the class and an identifier of the
    class with a number between 1000 and 9999; no block of another class
    is among them. *)
Theorem blocks_stay_in_their_class w k p :
  reachable w → pool_of w k = Some p →
  length (heap w) = 330%nat
  ∧ (∃ p0, pool_of (boot (clock w) (entropy w)) k = Some p0
           ∧ available p ++ allocated p ≡ₚ available p0)
  ∧ NoDup (available p ++ allocated p)
  ∧ ∀ r, r ∈ available p ++ allocated p →
      (r < length (heap w))%nat
      ∧ b_size (heap w !!! r) = k
      ∧ (∃ n, 1000 ≤ n ≤ 9999 ∧ b_id (heap w !!! r) = block_name k n)
      ∧ ∀ k' p', pool_of w k' = Some p' → k' ≠ k → r ∉ available p' ++ allocated p'.
Proof.
  intros Hc%reachable_conserved Hp.
  pose proof Hc as (_ & Hlen & _ & Hpools).
  destruct (Forall_pool_conserved _ _ _ Hpools Hp) as (p0 & Hp0 & Hperm).
  cbn [fst snd] in Hp0, Hperm.
  split_and!.
  - by rewrite Hlen, boot_heap_length.
  - exists p0. by rewrite pool_of_boot.
  - rewrite Hperm. apply dict_get_elem in Hp0.
    pose proof boot_pools_classes as H. rewrite Forall_forall in H.
    by destruct (H _ Hp0) as (_ & _ & Hnd).
  - intros r Hr. destruct (conserved_block w k p r Hc Hp Hr) as (Hlt & Hs & Hid).
    split_and!; [done | done | |].
    + eexists. split; [|exact Hid].
      pose proof (Z.mod_pos_bound (entropy w r) (9999 - 1000 + 1)). lia.
    + intros k' p' Hp' Hne Hr'.
      pose proof (conserved_class w k p r Hc Hp Hr).
      pose proof (conserved_class w k' p' r Hc Hp' Hr'). congruence.
Qed.

Lemma blocks_stay_in_their_class_witness :
  ∃ p, pool_of demo_world 4 = Some p ∧ b_size (heap demo_world !!! 149%nat) = 4.
Proof.
  assert (Hp : pool_of demo_world 4 = Some (mkPool (seq 100 49) [149%nat] 50 1))
    by (by vm_compute).
  destruct (blocks_stay_in_their_class demo_world 4 _ reachable_demo_world Hp)
    as (_ & _ & _ & H).
  destruct (H 149%nat) as (_ & Hs & _).
  { apply elem_of_app. right. by left. }
  eexists. split; [exact Hp | exact Hs].
Defined.

(** X3. [_defragment_memory] never moves a block: in every reachable world
    it returns 0 and leaves the world as it was, because the size written
    in a block is the size of its class, never less than half of it. *)
Theorem defragment_never_moves w :
  reachable w → _defragment_memory w = (Return 0, w).
Proof. intros Hc%reachable_conserved. by apply defragment_conserved. Qed.

Lemma defragment_never_moves_witness :
  _defragment_memory oversized_world = (Return 0, oversized_world).
Proof.
  apply defragment_never_moves.
  exists demo_clock, demo_entropy,
    (replicate 101 (CallAllocate 1 "normal") ++ [CallDeallocate "block_1_1049"]).
  reflexivity.
Defined.

(** ** Requests at the bounds of the size classes *)

(** X4. No request above 512 KB is ever served: in every reachable world
    [allocate_memory] answers [None] and changes nothing. *)
Theorem allocate_memory_above_largest_class w size priority :
  reachable w → 512 < size → allocate_memory size priority w = (Return None, w).
Proof.
  intros Hw Hsize. apply allocate_memory_None, best_pool_no_fit.
  intros k p Hp Hle. pose proof (pool_sizes_bounds k (reachable_keys w k p Hw Hp)). lia.
Qed.

Lemma allocate_memory_above_largest_class_witness :
  allocate_memory 513 "high" demo_world = (Return None, demo_world).
Proof. apply allocate_memory_above_largest_class; [exact reachable_demo_world | lia]. Defined.

Lemma fits_below_one w size k :
  reachable w → size ≤ 1 → fits w size k ↔ fits w 1 k.
Proof.
  intros Hw Hsize. split; intros (p & Hp & Hle & Hne); exists p; split_and!; try done.
  - pose proof (pool_sizes_bounds k (reachable_keys w k p Hw Hp)). lia.
  - lia.
Qed.

Lemma best_fit_below_one w size k :
  reachable w → size ≤ 1 → best_fit w size k ↔ best_fit w 1 k.
Proof.
  intros Hw Hsize. unfold best_fit. rewrite (fits_below_one w size k Hw Hsize).
  split; intros [Hfit Hleast]; (split; [done|]); intros k' Hk'; apply Hleast;
    by apply (fits_below_one w size k' Hw Hsize).
Qed.

(** X5. The requested size is not validated: a request of at most 1 KB,
    zero and negative sizes included, is served exactly like a request of
    1 KB. It returns the same answer and leaves the same pools and the same
    blocks; only the record added to the allocation history differs, which
    keeps the size as it was given. *)
Theorem allocate_memory_size_not_validated w size priority :
  reachable w → size ≤ 1 →
  (allocate_memory size priority w).1 = (allocate_memory 1 priority w).1
  ∧ memory_pools (manager (allocate_memory size priority w).2)
    = memory_pools (manager (allocate_memory 1 priority w).2)
  ∧ heap (allocate_memory size priority w).2 = heap (allocate_memory 1 priority w).2
  ∧ (∀ block_id, (allocate_memory size priority w).1 = Return (Some block_id) →
       r_size <$> last (allocation_history (manager (allocate_memory size priority w).2))
       = Some size).
Proof.
  intros Hw Hsize.
  destruct (allocate_memory_cases w size priority)
    as [[Hall ->]|(k & p & r & rest & Hfit & Hp & Hav & ->)].
  - destruct (allocate_memory_cases w 1 priority)
      as [[_ ->]|(k & p & r & rest & [(p' & Hp' & Hle & Hne) _] & _ & _ & _)]; [done|].
    exfalso. apply Hne. apply (Hall k p' Hp'). lia.
  - apply (best_fit_below_one w size k Hw Hsize) in Hfit.
    destruct (allocate_memory_cases w 1 priority)
      as [[Hall _]|(k1 & p1 & r1 & rest1 & Hfit1 & Hp1 & Hav1 & ->)].
    { destruct Hfit as [(p' & Hp' & Hle & Hne) _]. exfalso. apply Hne. eauto. }
    assert (k1 = k) as ->.
    { destruct Hfit as [Hf Hl], Hfit1 as [Hf1 Hl1]. apply Z.le_antisymm; auto. }
    assert (p1 = p) as -> by congruence.
    rewrite Hav in Hav1. apply app_inj_tail in Hav1 as [<- <-].
    cbn [fst snd]. split_and!; [done | done | done |].
    intros block_id _. simpl. by rewrite last_snoc.
Qed.

Lemma allocate_memory_size_not_validated_witness :
  (allocate_memory (-3) "low" demo_world).1 = (allocate_memory 1 "low" demo_world).1.
Proof.
  apply (allocate_memory_size_not_validated demo_world (-3) "low");
    [exact reachable_demo_world | lia].
Defined.

(** ** Allocation and deallocation together *)

Lemma dict_set_same {V} (d : list (Z * V)) k v : dict_get k d = Some v → dict_set k v d = d.
Proof.
  induction d as [|[k0 v0] d IH]; simpl; [done|].
  destruct (k =? k0) eqn:E.
  - apply Z.eqb_eq in E. by intros [= ->]; subst.
  - intros H. by rewrite IH.
Qed.

(** The block after the three assignments of an allocation. *)
Lemma stamped_block (h : list Block) r t1 t2 priority :
  (r < length h)%nat →
  alter (set_priority priority) r
    (alter (set_last_access (Some t2)) r (alter (set_allocated_at (Some t1)) r h)) !!! r
  = mkBlock (b_id (h !!! r)) (b_size (h !!! r)) (Some t1) (Some t2) (Some priority).
Proof.
  intros Hlt. rewrite !list_lookup_total_alter_eq by (by rewrite ?length_alter). done.
Qed.

Lemma pool_of_elem w k p : pool_of w k = Some p → (k, p) ∈ memory_pools (manager w).
Proof. apply dict_get_elem. Qed.

Lemma reachable_run clk ent calls : reachable (run (boot clk ent) calls).
Proof. exists clk, ent, calls. reflexivity. Qed.

(** X6. A successful allocation stamps the block and writes the ledger:
    the block taken is the last available block of its pool; it receives
    the first reading of the clock as ['allocated_at'], the next reading as
    ['last_access'] and the priority, and keeps the size of its class; the
    history gains one record with the identifier, the size as requested,
    the time of allocation and the priority; [total_allocations] grows by
    one; no other block changes. *)
Theorem allocate_memory_stamps_and_records w size priority block_id w' :
  reachable w →
  allocate_memory size priority w = (Return (Some block_id), w') →
  ∃ k p r,
    pool_of w k = Some p ∧ last (available p) = Some r
    ∧ heap w' !!! r
      = mkBlock block_id k (Some (clock w (clock_reads w)))
          (Some (clock w (S (clock_reads w)))) (Some priority)
    ∧ (∀ r', r' ≠ r → heap w' !!! r' = heap w !!! r')
    ∧ allocation_history (manager w')
      = allocation_history (manager w)
        ++ [mkRecord block_id size (Some (clock w (clock_reads w))) priority]
    ∧ total_allocations (manager w') = total_allocations (manager w) + 1
    ∧ total_deallocations (manager w') = total_deallocations (manager w)
    ∧ clock_reads w' = S (S (clock_reads w))
    ∧ entropy_reads w' = entropy_reads w.
Proof.
  intros Hc%reachable_conserved Halloc.
  destruct (allocate_memory_cases w size priority)
    as [[_ Heq]|(k & p & r & rest & _ & Hp & Hav & Heq)];
    rewrite Heq in Halloc; [done|].
  injection Halloc as Hid <-.
  destruct (conserved_block w k p r Hc Hp) as (Hlt & Hs & _).
  { rewrite Hav. apply elem_of_app. left. apply elem_of_app. right. by left. }
  exists k, p, r. split_and!; try done.
  - by rewrite Hav, last_snoc.
  - simpl. rewrite stamped_block by done. by rewrite Hid, Hs.
  - intros r' Hne. simpl. by rewrite !list_lookup_total_alter_ne.
  - simpl. rewrite stamped_block by done. by rewrite Hid.
Qed.

Lemma boot_history clk ent : allocation_history (manager (boot clk ent)) = [].
Proof. by vm_compute. Qed.

Lemma allocate_memory_stamps_and_records_witness :
  ∃ w', allocate_memory 3 "high" (boot demo_clock demo_entropy)
        = (Return (Some "block_4_1149"), w')
        ∧ allocation_history (manager w') = [mkRecord "block_4_1149" 3 (Some 1%Q) "high"].
Proof.
  assert (Halloc : allocate_memory 3 "high" (boot demo_clock demo_entropy)
                   = (Return (Some "block_4_1149"),
                      (allocate_memory 3 "high" (boot demo_clock demo_entropy)).2))
    by (by vm_compute).
  destruct (allocate_memory_stamps_and_records _ _ _ _ _ (reachable_boot _ _) Halloc)
    as (k & p & r & _ & _ & _ & _ & Hhist & _).
  eexists. split; [exact Halloc|].
  rewrite Hhist, boot_clock, boot_clock_reads, boot_history. reflexivity.
Defined.

(** The scan of [deallocate_memory] right after an allocation that
    returned an identifier no allocated block carried. *)
Lemma deallocate_after_allocate w size priority k p r rest :
  ¬ is_allocated w (b_id (heap w !!! r)) →
  pool_of w k = Some p → available p = rest ++ [r] →
  deallocate_memory (b_id (heap w !!! r)) (allocated_world w size priority k p r rest)
  = (Return true,
     deallocated_world (allocated_world w size priority k p r rest) k
       (mkPool rest (allocated p ++ [r]) (total_blocks p) (used_blocks p + 1))
       (length (allocated p)) r).
Proof.
  intros Hno Hp Hav.
  set (w1 := allocated_world w size priority k p r rest).
  destruct (deallocate_memory_cases w1 (b_id (heap w !!! r)))
    as [[Hno1 _]|(k1 & p1 & i & r1 & Hp1 & Hf & Heq1)].
  { exfalso. apply Hno1.
    exists k, (mkPool rest (allocated p ++ [r]) (total_blocks p) (used_blocks p + 1)), r.
    split_and!.
    - unfold w1. rewrite pool_of_allocated_world. by case_decide.
    - simpl. apply elem_of_app. right. by left.
    - unfold w1. by rewrite b_id_allocated_world. }
  rewrite Heq1. unfold w1 in Hp1. rewrite pool_of_allocated_world in Hp1.
  case_decide as Hk.
  - subst k1. injection Hp1 as <-. cbn [allocated] in Hf.
    apply list_find_app_Some in Hf as [Hf|(Hlen & _ & Hf)].
    { apply list_find_Some in Hf as (Hi & Hidr & _). exfalso. apply Hno.
      exists k, p, r1. split_and!; [done | | ].
      - apply list_elem_of_lookup. by exists i.
      - unfold w1 in Hidr. by rewrite b_id_allocated_world in Hidr. }
    apply list_find_Some in Hf as (Hi & _ & _).
    apply list_lookup_singleton_Some in Hi as [Hi <-].
    by assert (i = length (allocated p)) as -> by lia.
  - exfalso. apply Hno. apply list_find_Some in Hf as (Hi & Hidr & _).
    exists k1, p1, r1. split_and!; [done | |].
    + apply list_elem_of_lookup. by exists i.
    + unfold w1 in Hidr. by rewrite b_id_allocated_world in Hidr.
Qed.

(** X7. Allocation followed by deallocation of the identifier returned is
    a round trip on the pools: when no allocated block carried the
    identifier before, the deallocation succeeds and every pool has again
    the lists and the count it had, the block back at the end of its
    available list. The block keeps the priority it was given, its
    timestamps are cleared, the history keeps the record and both counters
    have grown by one. *)
Theorem allocate_deallocate_round_trip w size priority block_id w1 :
  reachable w → ¬ is_allocated w block_id →
  allocate_memory size priority w = (Return (Some block_id), w1) →
  ∃ w2 r,
    deallocate_memory block_id w1 = (Return true, w2)
    ∧ memory_pools (manager w2) = memory_pools (manager w)
    ∧ b_id (heap w !!! r) = block_id
    ∧ heap w2 !!! r = mkBlock block_id (b_size (heap w !!! r)) None None (Some priority)
    ∧ (∀ r', r' ≠ r → heap w2 !!! r' = heap w !!! r')
    ∧ length (allocation_history (manager w2)) = S (length (allocation_history (manager w)))
    ∧ total_allocations (manager w2) = total_allocations (manager w) + 1
    ∧ total_deallocations (manager w2) = total_deallocations (manager w) + 1.
Proof.
  intros Hc%reachable_conserved Hno Halloc.
  destruct (allocate_memory_cases w size priority)
    as [[_ Heq]|(k & p & r & rest & _ & Hp & Hav & Heq)];
    rewrite Heq in Halloc; [done|].
  injection Halloc as Hid <-. subst block_id.
  destruct (conserved_block w k p r Hc Hp) as (Hlt & Hs & _).
  { rewrite Hav. apply elem_of_app. left. apply elem_of_app. right. by left. }
  eexists _, r. split; [by apply deallocate_after_allocate|].
  split_and!; try done.
  - simpl. rewrite dict_set_set.
    replace (allocated p ++ [r]) with (allocated p ++ r :: []) by done.
    rewrite delete_middle, app_nil_r, <- Hav.
    replace (used_blocks p + 1 - 1) with (used_blocks p) by lia.
    apply dict_set_same. by destruct p.
  - simpl. rewrite !list_lookup_total_alter_eq by (by rewrite ?length_alter). done.
  - intros r' Hne. simpl. by rewrite !list_lookup_total_alter_ne.
  - simpl. rewrite length_app. simpl. lia.
Qed.

Lemma allocate_deallocate_round_trip_witness :
  ∃ w1 w2,
    allocate_memory 1 "normal" (boot demo_clock demo_entropy)
    = (Return (Some "block_1_1049"), w1)
    ∧ deallocate_memory "block_1_1049" w1 = (Return true, w2)
    ∧ memory_pools (manager w2) = memory_pools (manager (boot demo_clock demo_entropy)).
Proof.
  assert (Halloc : allocate_memory 1 "normal" (boot demo_clock demo_entropy)
                   = (Return (Some "block_1_1049"),
                      (allocate_memory 1 "normal" (boot demo_clock demo_entropy)).2))
    by (by vm_compute).
  destruct (allocate_deallocate_round_trip _ _ _ _ _ (reachable_boot _ _)
              (boot_nothing_allocated _ _ _) Halloc) as (w2 & r & H1 & H2 & _).
  eexists _, w2. split; [exact Halloc|]. split; [exact H1 | exact H2].
Defined.

(** X8. The block freed last is the block handed out next: after a
    successful deallocation, a request that the class of the freed block
    serves best returns the same identifier, from the same block, which
    goes back to the end of the allocated list of its pool. *)
Theorem freed_block_is_reused_first w block_id size priority :
  is_allocated w block_id →
  ∃ k p i r w1,
    deallocate_memory block_id w = (Return true, w1)
    ∧ pool_of w k = Some p ∧ allocated p !! i = Some r
    ∧ b_id (heap w !!! r) = block_id
    ∧ (size ≤ k →
       (∀ k' p', pool_of w k' = Some p' → size ≤ k' → k' < k → available p' = []) →
       ∃ w2, allocate_memory size priority w1 = (Return (Some block_id), w2)
             ∧ pool_of w2 k = Some (mkPool (available p) (delete i (allocated p) ++ [r])
                                      (total_blocks p) (used_blocks p - 1 + 1))).
Proof.
  intros Ha.
  destruct (deallocate_memory_cases w block_id) as [[Hno _]|(k & p & i & r & Hp & Hf & Heq)];
    [done|].
  apply list_find_Some in Hf as (Hi & Hid & _).
  exists k, p, i, r, (deallocated_world w k p i r).
  split_and!; [done..|].
  intros Hle Hsmaller.
  set (w1 := deallocated_world w k p i r).
  set (p1 := mkPool (available p ++ [r]) (delete i (allocated p))
               (total_blocks p) (used_blocks p - 1)).
  assert (Hp1 : pool_of w1 k = Some p1).
  { unfold w1. rewrite pool_of_deallocated_world. by case_decide. }
  assert (Hfit : best_fit w1 size k).
  { split.
    - exists p1. split_and!; [done | done |]. simpl. by destruct (available p).
    - intros k' (p' & Hp' & Hle' & Hne').
      destruct (decide (k ≤ k')) as [|Hlt]; [done|]. exfalso. apply Hne'.
      unfold w1 in Hp'. rewrite pool_of_deallocated_world in Hp'.
      case_decide; [lia|]. apply (Hsmaller k' p' Hp'); lia. }
  destruct (allocate_memory_cases w1 size priority)
    as [[Hall _]|(k0 & p0 & r0 & rest0 & [Hfit0 Hleast0] & Hp0 & Hav0 & Heq0)].
  { exfalso. assert (Hnil := Hall k p1 Hp1 Hle). simpl in Hnil. by destruct (available p). }
  assert (k0 = k) as ->.
  { destruct Hfit as [Hf Hl]. apply Z.le_antisymm; auto. }
  assert (p0 = p1) as -> by congruence.
  simpl in Hav0. apply app_inj_tail in Hav0 as [<- <-].
  eexists. split.
  - rewrite Heq0. unfold w1. by rewrite b_id_deallocated_world, Hid.
  - rewrite pool_of_allocated_world. by case_decide.
Qed.

Lemma freed_block_is_reused_first_witness :
  ∃ w1 w2,
    deallocate_memory "block_1_1049" demo_world = (Return false, demo_world)
    ∧ deallocate_memory "block_4_1149" demo_world = (Return true, w1)
    ∧ allocate_memory 3 "low" w1 = (Return (Some "block_4_1149"), w2).
Proof.
  assert (Hp : pool_of demo_world 4 = Some (mkPool (seq 100 49) [149%nat] 50 1))
    by (by vm_compute).
  assert (Hid : b_id (heap demo_world !!! 149%nat) = "block_4_1149") by (by vm_compute).
  destruct (freed_block_is_reused_first demo_world "block_4_1149" 3 "low")
    as (k & p & i & r & w1 & Hd & Hpk & Hi & Hidr & Hnext).
  { exists 4, (mkPool (seq 100 49) [149%nat] 50 1), 149%nat.
    split_and!; [exact Hp | by left | exact Hid]. }
  assert (Hone : Forall (λ kp : Z * Pool, kp.1 = 4 ∨ allocated kp.2 = [])
                   (memory_pools (manager demo_world))).
  { apply (bool_decide_unpack _). by vm_compute. }
  assert (Hfull : Forall (λ kp : Z * Pool, 4 ≤ kp.1 ∨ kp.1 < 3)
                    (memory_pools (manager demo_world))).
  { apply (bool_decide_unpack _). by vm_compute. }
  assert (k = 4) as ->.
  { apply pool_of_elem in Hpk. rewrite Forall_forall in Hone.
    destruct (Hone _ Hpk) as [Hk|Hnil]; [exact Hk|]. cbn [snd] in Hnil.
    rewrite Hnil, lookup_nil in Hi. discriminate Hi. }
  destruct Hnext as (w2 & Hw2 & _); [lia | |].
  - intros k' p' Hp' Hle Hlt. exfalso.
    apply pool_of_elem in Hp'. rewrite Forall_forall in Hfull.
    destruct (Hfull _ Hp') as [?|?]; cbn [fst] in *; lia.
  - exists w1, w2. split_and!; [by vm_compute | exact Hd | exact Hw2].
Defined.

(** ** Properties kept by the methods, the statistics included *)

Section methods.
Variable P : World → Prop.
Hypothesis P_allocate : ∀ size priority, preserves P (allocate_memory size priority).
Hypothesis P_deallocate : ∀ block_id, preserves P (deallocate_memory block_id).
Hypothesis P_time : preserves P time_time.
Hypothesis P_gc_time : ∀ x, preserves P (modify (set_manager (set_last_gc_time x))).
Hypothesis P_info : preserves P get_memory_info.
Hypothesis P_stats : ∀ used_mb total_mb, preserves P (_update_memory_stats used_mb total_mb).

Local Ltac step :=
  first
    [ apply preserves_ret | apply preserves_raise | apply preserves_gets
    | apply preserves_getitem | apply preserves_deref | apply preserves_true_div
    | apply P_allocate | apply P_deallocate | apply P_time | apply P_gc_time
    | apply preserves_bind; [|intros ?]
    | apply preserves_try_except; [|intros ?]
    | apply preserves_for_acc; intros ? ?
    | match goal with
      | |- preserves _ (if ?b then _ else _) => destruct b
      | |- preserves _ (match ?x with _ => _ end) => destruct x
      end ].

Lemma kept_migrate pool_size block keys : preserves P (migrate pool_size block keys).
Proof.
  induction keys as [|smaller_size keys IH]; simpl; [apply preserves_ret|].
  repeat first [apply IH | step].
Qed.

Lemma kept_defragment : preserves P _defragment_memory.
Proof.
  unfold _defragment_memory, defragment_pool, defragment_block.
  repeat first [apply kept_migrate | step].
Qed.

Lemma kept_garbage_collect : preserves P garbage_collect.
Proof.
  unfold garbage_collect, collect_pool, collect_block.
  repeat first [apply kept_defragment | step].
Qed.

Lemma kept_get_memory_map : preserves P get_memory_map.
Proof. unfold get_memory_map, map_entry. repeat step. Qed.

Lemma kept_get_memory_analytics : preserves P get_memory_analytics.
Proof. unfold get_memory_analytics. repeat step. Qed.



Lemma kept_exec c : ∀ w, P w → P (exec w c).
Proof.
  destruct c; simpl.
  - apply P_allocate.
  - apply P_deallocate.
  - apply kept_garbage_collect.
  - apply kept_defragment.
  - apply P_info.
  - apply P_stats.
  - apply kept_get_memory_map.
  - apply kept_get_memory_analytics.
Qed.

Lemma kept_run calls : ∀ w, P w → P (run w calls).
Proof.
  induction calls as [|c calls IH]; intros w Hw; simpl; [done|].
  apply IH. by apply kept_exec.
Qed.
End methods.

(** ** The two methods that write the statistics *)

Lemma update_memory_stats_zero w used_mb :
  _update_memory_stats used_mb 0 w
  = (Raise "ZeroDivisionError: division by zero",
     set_manager (set_current_fragmentation 5) w).
Proof. done. Qed.

Lemma drawn_used_mb_range w : 4 ≤ drawn_used_mb w ≤ 8.
Proof.
  unfold drawn_used_mb.
  pose proof (Z.mod_pos_bound (entropy w (entropy_reads w)) (8 - 4 + 1)). lia.
Qed.

Lemma stepped_pressure_drawn w :
  stepped_pressure (inject_Z (drawn_used_mb w) / inject_Z 16)
  = (inject_Z (drawn_used_mb w) / inject_Z 16)%Q.
Proof.
  pose proof (drawn_used_mb_range w) as H.
  assert (drawn_used_mb w = 4 ∨ drawn_used_mb w = 5 ∨ drawn_used_mb w = 6
          ∨ drawn_used_mb w = 7 ∨ drawn_used_mb w = 8) as Hcases by lia.
  destruct Hcases as [->|[->|[->|[->| ->]]]]; by vm_compute.
Qed.

Lemma get_memory_info_run w :
  get_memory_info w
  = (Return
       (mkMemoryInfo "16 MB" (pretty (drawn_used_mb w) +:+ " MB")
          (pretty (16 - drawn_used_mb w) +:+ " MB")
          (inject_Z (drawn_used_mb w) / inject_Z 16 * 100)%Q
          5%Q
          (if 0 <? cache_hits (manager w) + cache_misses (manager w)
           then (inject_Z (cache_hits (manager w))
                 / inject_Z (cache_hits (manager w) + cache_misses (manager w)) * 100)%Q
           else 0%Q)
          (inject_Z (drawn_used_mb w) / inject_Z 16)%Q
          (last_gc_time (manager w))),
     info_world w).
Proof.
  unfold get_memory_info, true_div. munfold.
  unfold random_randint. simpl.
  rewrite (update_memory_stats_run _ _ 16) by done. simpl.
  fold (drawn_used_mb w). rewrite stepped_pressure_drawn. unfold info_world.
  replace (pretty 16) with "16" by (by vm_compute).
  destruct (0 <? cache_hits (manager w) + cache_misses (manager w)) eqn:Hc; [|done].
  apply Z.ltb_lt in Hc.
  destruct (cache_hits (manager w) + cache_misses (manager w) =? 0) eqn:Hz;
    [apply Z.eqb_eq in Hz; lia|]. done.
Qed.

(** ** The counters of the manager *)

Lemma blocks_in_use_cons kp pools :
  blocks_in_use (kp :: pools) = used_blocks kp.2 + blocks_in_use pools.
Proof. done. Qed.

Lemma blocks_in_use_set pools k p p' :
  dict_get k pools = Some p →
  blocks_in_use (dict_set k p' pools) = blocks_in_use pools - used_blocks p + used_blocks p'.
Proof.
  induction pools as [|[k0 p0] pools IH]; cbn [dict_get dict_set]; [done|].
  destruct (k =? k0) eqn:E.
  - intros [= ->]. rewrite !blocks_in_use_cons. cbn [snd]. lia.
  - intros H. rewrite !blocks_in_use_cons, IH by done. lia.
Qed.

Lemma ledger_ok_allocate size priority : preserves ledger_ok (allocate_memory size priority).
Proof.
  intros w [Hhist Hsum].
  destruct (allocate_memory_cases w size priority)
    as [[_ ->]|(k & p & r & rest & _ & Hp & Hav & ->)]; [done|].
  unfold ledger_ok. cbn [snd]. simpl. split.
  - rewrite length_app. simpl. lia.
  - rewrite (blocks_in_use_set _ k p) by done. simpl. lia.
Qed.

Lemma ledger_ok_deallocate block_id : preserves ledger_ok (deallocate_memory block_id).
Proof.
  intros w [Hhist Hsum].
  destruct (deallocate_memory_cases w block_id)
    as [[_ ->]|(k & p & i & r & Hp & _ & ->)]; [done|].
  unfold ledger_ok. cbn [snd]. simpl. split; [done|].
  rewrite (blocks_in_use_set _ k p) by done. simpl. lia.
Qed.

Lemma ledger_ok_stats used_mb total_mb :
  preserves ledger_ok (_update_memory_stats used_mb total_mb).
Proof.
  intros w Hw. destruct (decide (total_mb = 0)) as [->|Hne].
  - by rewrite update_memory_stats_zero.
  - by rewrite update_memory_stats_run.
Qed.

Lemma ledger_ok_info : preserves ledger_ok get_memory_info.
Proof. intros w Hw. by rewrite get_memory_info_run. Qed.

Lemma ledger_ok_boot clk ent : ledger_ok (boot clk ent).
Proof. unfold ledger_ok. rewrite boot_memory_pools. by vm_compute. Qed.

Lemma reachable_ledger_ok w : reachable w → ledger_ok w.
Proof.
  intros (clk & ent & calls & ->).
  apply kept_run; auto using ledger_ok_allocate, ledger_ok_deallocate, ledger_ok_stats,
    ledger_ok_info, ledger_ok_boot.
  - by intros w Hw.
  - by intros x w Hw.
Qed.

Lemma blocks_in_use_bounds pools :
  Forall (λ kp, pool_ok kp.1 kp.2) pools →
  blocks_in_use pools
  = foldr Z.add 0 ((λ kp, Z.of_nat (length (allocated kp.2))) <$> pools)
  ∧ 0 ≤ blocks_in_use pools ≤ foldr Z.add 0 (block_count <$> dict_keys pools).
Proof.
  unfold blocks_in_use, dict_keys.
  induction 1 as [|[k p] pools (Htotal & Hused & Hcap) _ IH]; [simpl; lia|].
  rewrite !fmap_cons. cbn [foldr fst snd] in *. rewrite Hused.
  pose proof (Nat2Z.is_nonneg (length (allocated p))).
  pose proof (Nat2Z.is_nonneg (length (available p))). lia.
Qed.

(** X10. The counters of the manager agree with the history and with the
    pools in every reachable world: [total_allocations] is the length of
    the allocation history, and [total_allocations - total_deallocations]
    is the number of blocks in the allocated lists, which is the sum of the
    counters [used_blocks] and lies between 0 and 330. *)
Theorem counters_agree_with_pools w :
  reachable w →
  total_allocations (manager w) = Z.of_nat (length (allocation_history (manager w)))
  ∧ total_allocations (manager w) - total_deallocations (manager w)
    = foldr Z.add 0 ((λ kp, Z.of_nat (length (allocated kp.2))) <$> memory_pools (manager w))
  ∧ total_allocations (manager w) - total_deallocations (manager w)
    = foldr Z.add 0 ((λ kp, used_blocks kp.2) <$> memory_pools (manager w))
  ∧ 0 ≤ total_allocations (manager w) - total_deallocations (manager w) ≤ 330.
Proof.
  intros Hw. destruct (reachable_ledger_ok w Hw) as [Hhist Hsum].
  destruct (reachable_pools_ok w Hw) as [Hkeys Hok].
  destruct (blocks_in_use_bounds _ Hok) as [Heq Hbound].
  rewrite Hkeys in Hbound. change (foldr Z.add 0 (block_count <$> pool_sizes)) with 330 in Hbound.
  split; [exact Hhist|]. split; [by rewrite Hsum|]. split; [exact Hsum|].
  rewrite Hsum. exact Hbound.
Qed.

Lemma counters_agree_with_pools_witness :
  total_allocations (manager demo_world) = 2
  ∧ total_deallocations (manager demo_world) = 1
  ∧ total_allocations (manager demo_world) - total_deallocations (manager demo_world)
    = foldr Z.add 0 ((λ kp, Z.of_nat (length (allocated kp.2)))
                       <$> memory_pools (manager demo_world)).
Proof.
  destruct (counters_agree_with_pools demo_world reachable_demo_world) as (_ & H & _).
  split; [by vm_compute|]. split; [by vm_compute | exact H].
Defined.

(** ** The attributes that are never assigned *)











(** ** [get_memory_info] *)



(** ** The pressure and the thresholds *)





(** ** The pressure under the functions of the module *)









(** ** The report of [garbage_collect] *)

(** A loop keeps a relation between its local variable and the world. *)
Lemma for_acc_invariant {A S} (I : S → World → Prop) (xs : list A) (body : S → A → M S) :
  (∀ s x v, I s v →
     match body s x v with (Return s', v') => I s' v' | (Raise _, _) => True end) →
  ∀ acc w, I acc w →
    match for_acc xs body acc w with (Return s', w') => I s' w' | (Raise _, _) => True end.
Proof.
  intros Hbody. induction xs as [|x xs IH]; intros acc w Hw; [done|].
  rewrite for_acc_cons. specialize (Hbody acc x w Hw).
  destruct (body acc x w) as [[s'|e] v']; [by apply IH | done].
Qed.

Lemma collecting_block w0 k now c r v :
  collecting w0 c v →
  match collect_block k now c r v with
  | (Return c', v') => collecting w0 c' v'
  | (Raise _, _) => True
  end.
Proof.
  intros Hv. unfold collect_block. munfold. cbv beta.
  destruct (b_last_access (heap v !!! r)) as [last|]; [|done].
  destruct (Qgt_bool (now - last) (gc_timeout k)); [|done].
  destruct (deallocate_memory_cases v (b_id (heap v !!! r)))
    as [[_ ->]|(k1 & p1 & i & r1 & _ & _ & ->)]; [done|].
  destruct Hv as (Htd & Hta & Hh & He & Hgc & Hpr). unfold collecting. simpl.
  split_and!; [lia | done..].
Qed.

Lemma collecting_pool w0 c k v :
  collecting w0 c v →
  match collect_pool c k v with
  | (Return c', v') => collecting w0 c' v'
  | (Raise _, _) => True
  end.
Proof.
  intros Hv. unfold collect_pool, getitem, time_time, mbind, M_bind.
  destruct (dict_get k (memory_pools (manager v))) as [p|]; [|done].
  apply (for_acc_invariant (collecting w0)); [|done].
  intros s x v' Hv'. by apply collecting_block.
Qed.

Lemma garbage_collect_cycle w :
  wf w →
  ∃ w1,
    garbage_collect w
    = (Return
         (mkGcReport (reclaimed w (S (clock_reads w)) pool_sizes)
            (clock w (clock_reads w + 12) - clock w (clock_reads w))%Q
            (pretty (reclaimed w (S (clock_reads w)) pool_sizes * 1024) +:+ " KB")
            (Qgt_bool (memory_pressure (manager w)) (gc_threshold (manager w)))),
       mkWorld (heap w1) (set_last_gc_time (clock w (clock_reads w + 11)) (manager w1))
         (clock w) (clock_reads w + 13) (entropy w1) (entropy_reads w1))
    ∧ collecting w (reclaimed w (S (clock_reads w)) pool_sizes) w1.
Proof.
  intros Hwf.
  destruct (collect_pools_run pool_sizes (time_time w).2 0 (wf_time w Hwf)
              pool_sizes_NoDup (λ k H, H))
    as (w1 & Hrun & Hwf1 & Hclock & Hreads & Hpr & Hth & _ & _).
  assert (Hkeys : dict_keys (memory_pools (manager w)) = pool_sizes) by apply Hwf.
  pose proof (defragment_noop w1 Hwf1) as Hdefrag.
  assert (Hcol : collecting w (0 + reclaimed (time_time w).2 (clock_reads (time_time w).2)
                                     pool_sizes) w1).
  { pose proof (for_acc_invariant (collecting w) pool_sizes collect_pool
                  (λ s x v Hv, collecting_pool w s x v Hv) 0 (time_time w).2) as H.
    rewrite Hrun in H. apply H. unfold collecting. simpl. split_and!; [lia | done..]. }
  rewrite (reclaimed_ext w) in Hrun, Hcol by done.
  unfold time_time in Hrun, Hcol, Hclock, Hreads, Hpr, Hth.
  cbn [snd clock clock_reads manager] in Hrun, Hcol, Hclock, Hreads, Hpr, Hth.
  rewrite Z.add_0_l in Hrun, Hcol.
  exists w1. split; [|exact Hcol].
  unfold garbage_collect, try_except, mbind, M_bind, gets, modify, mret, M_ret.
  unfold time_time at 1. cbv beta iota. cbn [manager]. rewrite Hkeys, Hrun.
  assert (Hfinish : ∀ c,
    (Return
       (mkGcReport c (clock w1 (S (clock_reads w1)) - clock w (clock_reads w))%Q
          (pretty (c * 1024) +:+ " KB")
          (Qgt_bool (memory_pressure (set_last_gc_time (clock w1 (clock_reads w1)) (manager w1)))
             (gc_threshold (set_last_gc_time (clock w1 (clock_reads w1)) (manager w1))))),
     mkWorld (heap w1) (set_last_gc_time (clock w1 (clock_reads w1)) (manager w1))
       (clock w1) (S (S (clock_reads w1))) (entropy w1) (entropy_reads w1))
    = (Return
         (mkGcReport c (clock w (clock_reads w + 12) - clock w (clock_reads w))%Q
            (pretty (c * 1024) +:+ " KB")
            (Qgt_bool (memory_pressure (manager w)) (gc_threshold (manager w)))),
       mkWorld (heap w1) (set_last_gc_time (clock w (clock_reads w + 11)) (manager w1))
         (clock w) (clock_reads w + 13) (entropy w1) (entropy_reads w1))).
  { intros c. rewrite Hclock, Hreads. change (length pool_sizes) with 10%nat.
    replace (S (clock_reads w) + 10)%nat with (clock_reads w + 11)%nat by lia.
    replace (S (clock_reads w + 11)) with (clock_reads w + 12)%nat by lia.
    replace (S (clock_reads w + 12)) with (clock_reads w + 13)%nat by lia.
    change (memory_pressure (set_last_gc_time (clock w (clock_reads w + 11)) (manager w1)))
      with (memory_pressure (manager w1)).
    change (gc_threshold (set_last_gc_time (clock w (clock_reads w + 11)) (manager w1)))
      with (gc_threshold (manager w1)).
    by rewrite Hpr, Hth. }
  destruct (Qgt_bool (memory_pressure (manager w1)) (gc_threshold (manager w1))) eqn:Hgate.
  - rewrite Hdefrag. unfold time_time. cbv beta iota.
    cbn [manager clock clock_reads heap entropy entropy_reads set_manager].
    rewrite Z.add_0_r. apply Hfinish.
  - unfold time_time. cbv beta iota.
    cbn [manager clock clock_reads heap entropy entropy_reads set_manager].
    apply Hfinish.
Qed.

(** The sum of the idle blocks of a cycle is not negative. *)
Lemma reclaimed_nonneg w n ks : 0 ≤ reclaimed w n ks.
Proof.
  revert n. induction ks as [|k ks IH]; intros n; simpl; [done|].
  specialize (IH (S n)). lia.
Qed.

(** X16. A cycle of [garbage_collect] in a world reached under a clock that
    never steps back returns a report and reads the clock thirteen times:
    at the start, once for each of the ten classes, for [last_gc_time] and
    for the end. The report gives the number of blocks collected, the time
    between the first and the last reading, 1024 KB of freed memory for
    every collected block whatever its class, and whether the pressure
    exceeded the threshold. [total_deallocations] grows by the number of
    blocks collected; the allocations, their history, the pressure and the
    entropy source are left alone. *)
Theorem garbage_collect_report w :
  reachable w → nondecreasing (clock w) →
  ∃ report w',
    garbage_collect w = (Return report, w')
    ∧ 0 ≤ collected_blocks report
    ∧ collected_blocks report = reclaimed w (S (clock_reads w)) pool_sizes
    ∧ gc_time report = (clock w (clock_reads w + 12) - clock w (clock_reads w))%Q
    ∧ memory_freed report = pretty (collected_blocks report * 1024) +:+ " KB"
    ∧ defragmentation_performed report
      = Qgt_bool (memory_pressure (manager w)) (gc_threshold (manager w))
    ∧ last_gc_time (manager w') = clock w (clock_reads w + 11)
    ∧ clock_reads w' = (clock_reads w + 13)%nat
    ∧ total_deallocations (manager w')
      = total_deallocations (manager w) + collected_blocks report
    ∧ total_allocations (manager w') = total_allocations (manager w)
    ∧ allocation_history (manager w') = allocation_history (manager w)
    ∧ memory_pressure (manager w') = memory_pressure (manager w)
    ∧ entropy_reads w' = entropy_reads w.
Proof.
  intros Hw Hclk.
  destruct (garbage_collect_cycle w (reachable_wf w Hw Hclk))
    as (w1 & Hrun & Htd & Hta & Hh & He & _ & Hpr).
  eexists _, _. split; [exact Hrun|].
  cbn [collected_blocks gc_time memory_freed defragmentation_performed
       manager clock_reads entropy_reads].
  split_and!; try done. apply reclaimed_nonneg.
Qed.

Lemma garbage_collect_report_witness :
  ∃ report w',
    garbage_collect two_blocks_world = (Return report, w')
    ∧ collected_blocks report = 1
    ∧ memory_freed report = "1024 KB"
    ∧ total_deallocations (manager w') = 1.
Proof.
  destruct (garbage_collect_report two_blocks_world two_blocks_world_reachable
              two_blocks_world_clock)
    as (report & w' & Hrun & _ & Hc & _ & Hfreed & _ & _ & _ & Htd & _).
  assert (H1 : reclaimed two_blocks_world (S (clock_reads two_blocks_world)) pool_sizes = 1)
    by (by vm_compute).
  assert (H0 : total_deallocations (manager two_blocks_world) = 0) by (by vm_compute).
  exists report, w'. split; [exact Hrun|].
  rewrite Hfreed, Htd, Hc, H1, H0. split; [reflexivity|]. split; by vm_compute.
Defined.

(** ** The histogram of [get_memory_analytics] *)

Lemma in_range_cons s r l :
  in_range s (r :: l)
  = if decide (size_range (r_size r) = s) then r :: in_range s l else in_range s l.
Proof. unfold in_range. by rewrite filter_cons. Qed.

Lemma foldl_count_pattern l :
  ∀ (m : gmap string Z) s,
    foldl count_pattern m l !! s
    = if decide (in_range s l = []) then m !! s
      else Some (default 0 (m !! s) + Z.of_nat (length (in_range s l))).
Proof.
  induction l as [|r l IH]; intros m s; [done|].
  cbn [foldl]. rewrite IH, in_range_cons. unfold count_pattern.
  destruct (decide (size_range (r_size r) = s)) as [Heq|Hne].
  - subst s. rewrite lookup_insert_eq. cbn [default length].
    destruct (decide (in_range (size_range (r_size r)) l = [])) as [->|_].
    + rewrite decide_False by done. done.
    + rewrite decide_False by done. unfold id. f_equal. lia.
  - by rewrite lookup_insert_ne.
Qed.

Lemma last_n_length {A} n (l : list A) : length (last_n n l) = (length l `min` n)%nat.
Proof. unfold last_n. rewrite length_drop. lia. Qed.


(** ** The records of the history *)

Lemma history_ok_allocate size priority : preserves history_ok (allocate_memory size priority).
Proof.
  intros w [Hc Hh]. split; [by apply conserved_allocate|].
  destruct (allocate_memory_cases w size priority)
    as [[_ ->]|(k & p & r & rest & [(p' & Hp' & Hle & _) _] & Hp & Hav & ->)]; [done|].
  cbn [snd]. simpl. apply Forall_app. split; [done|]. apply Forall_singleton.
  destruct (conserved_block w k p r Hc Hp) as (Hlt & Hs & Hid).
  { rewrite Hav. apply elem_of_app. left. apply elem_of_app. right. by left. }
  rewrite stamped_block by done.
  exists k, (1000 + entropy w r `mod` (9999 - 1000 + 1)). simpl.
  split_and!; [by eapply conserved_key | done | | | done | done].
  - pose proof (Z.mod_pos_bound (entropy w r) (9999 - 1000 + 1)). lia.
  - pose proof (Z.mod_pos_bound (entropy w r) (9999 - 1000 + 1)). lia.
Qed.

Lemma history_ok_deallocate block_id : preserves history_ok (deallocate_memory block_id).
Proof.
  intros w [Hc Hh]. split; [by apply conserved_deallocate|].
  destruct (deallocate_memory_cases w block_id)
    as [[_ ->]|(k & p & i & r & _ & _ & ->)]; done.
Qed.

Lemma conserved_frame f :
  pools_frame f → preserves conserved (modify (set_manager f)).
Proof. intros Hf w Hw. unfold conserved in *. simpl. by rewrite Hf. Qed.

Lemma history_ok_stats used_mb total_mb :
  preserves history_ok (_update_memory_stats used_mb total_mb).
Proof.
  intros w [Hc Hh]. destruct (decide (total_mb = 0)) as [->|Hne].
  - by rewrite update_memory_stats_zero.
  - by rewrite update_memory_stats_run.
Qed.

Lemma history_ok_info : preserves history_ok get_memory_info.
Proof. intros w [Hc Hh]. by rewrite get_memory_info_run. Qed.

Lemma history_ok_boot clk ent : history_ok (boot clk ent).
Proof.
  split; [apply conserved_boot|].
  assert (allocation_history (manager (boot clk ent)) = []) as -> by (by vm_compute).
  constructor.
Qed.

Lemma reachable_history_ok w : reachable w → history_ok w.
Proof.
  intros (clk & ent & calls & ->).
  apply kept_run; auto using history_ok_allocate, history_ok_deallocate, history_ok_stats,
    history_ok_info, history_ok_boot.
  - by intros w Hw.
  - by intros x w Hw.
Qed.

Lemma size_range_small size : 0 ≤ size < 1024 → size_range size = "0-1024KB".
Proof.
  intros H. unfold size_range. rewrite Z.div_small by done. by vm_compute.
Qed.

(** X18. The history holds the requests that were served, nothing else:
    in every reachable world each record carries a size that is at most
    the class that served it, hence at most 512, an identifier of that
    class with a number from 1000 to 9999, and the time of the allocation.
    So when no request had a negative size, all records fall into the
    range "0-1024KB", and [allocation_patterns] is empty for an empty
    history and otherwise that single range with the number of records
    counted, at most 100. *)
Theorem history_holds_served_requests w :
  reachable w →
  Forall (λ r, ∃ k n, k ∈ pool_sizes ∧ r_size r ≤ k ∧ k ≤ 512 ∧ 1000 ≤ n ≤ 9999
                      ∧ r_block_id r = block_name k n ∧ is_Some (r_allocated_at r))
    (allocation_history (manager w))
  ∧ (Forall (λ r, 0 ≤ r_size r) (allocation_history (manager w)) →
     ∃ report,
       get_memory_analytics w = (Return report, w)
       ∧ allocation_patterns report
         = if decide (allocation_history (manager w) = []) then ∅
           else {[ "0-1024KB" :=
                   Z.of_nat (length (allocation_history (manager w)) `min` 100) ]}).
Proof.
  intros [_ Hh]%reachable_history_ok. split.
  - eapply Forall_impl; [exact Hh|]. intros r (k & n & Hk & Hle & Hn & Hid & Hat).
    exists k, n. pose proof (pool_sizes_bounds k Hk). split_and!; try done; lia.
  - intros Hpos. eexists. split; [reflexivity|]. cbn [allocation_patterns].
    set (l := last_n 100 (allocation_history (manager w))).
    assert (Hall : ∀ r, r ∈ l → size_range (r_size r) = "0-1024KB").
    { intros r Hr. apply size_range_small.
      assert (Hin : r ∈ allocation_history (manager w)).
      { unfold l, last_n in Hr. by eapply subseteq_drop. }
      rewrite Forall_forall in Hh, Hpos. destruct (Hh r Hin) as (k & n & Hk & Hle & _).
      pose proof (pool_sizes_bounds k Hk). specialize (Hpos r Hin). simpl in Hpos. lia. }
    apply map_eq. intros s. rewrite foldl_count_pattern, lookup_empty. fold l.
    destruct (decide (s = "0-1024KB")) as [->|Hs].
    + assert (in_range "0-1024KB" l = l) as -> by (by apply filter_all).
      assert (Hlen : length l = (length (allocation_history (manager w)) `min` 100)%nat)
        by apply last_n_length.
      destruct (allocation_history (manager w)) as [|r0 h] eqn:Hhist.
      * assert (l = []) as -> by (by destruct l).
        rewrite !decide_True by done. by rewrite lookup_empty.
      * assert (l ≠ []) by (intros Hl; rewrite Hl in Hlen; simpl in Hlen; lia).
        rewrite !decide_False by done. rewrite lookup_singleton_eq. cbn [default].
        by rewrite Hlen.
    + assert (in_range s l = []) as ->.
      { apply filter_none. intros r Hr Heq. apply Hs. by rewrite <- Heq, Hall. }
      rewrite decide_True by done.
      case_decide; [by rewrite lookup_empty | by rewrite lookup_singleton_ne].
Qed.

Lemma history_holds_served_requests_witness :
  ∃ report,
    get_memory_analytics three_entries_world = (Return report, three_entries_world)
    ∧ allocation_patterns report = {[ "0-1024KB" := 3 ]}.
Proof.
  destruct (history_holds_served_requests three_entries_world) as [_ H].
  { apply reachable_run. }
  destruct H as (report & Hrun & Hpat).
  { apply (bool_decide_unpack _). by vm_compute. }
  exists report. split; [exact Hrun|]. rewrite Hpat.
  assert (Hlen : length (allocation_history (manager three_entries_world)) = 3%nat)
    by (by vm_compute).
  destruct (allocation_history (manager three_entries_world)); [discriminate Hlen|].
  rewrite decide_False by discriminate. by rewrite Hlen.
Defined.

(** ** The state after [__init__] *)

Lemma boot_pools_shape :
  Forall (λ kp : Z * Pool,
            allocated kp.2 = [] ∧ used_blocks kp.2 = 0 ∧ total_blocks kp.2 = block_count kp.1
            ∧ Z.of_nat (length (available kp.2)) = block_count kp.1)
    boot_pools.
Proof. apply (bool_decide_unpack _). by vm_compute. Qed.

Lemma boot_entropy clk ent : entropy (boot clk ent) = ent.
Proof. by vm_compute. Qed.

Lemma boot_entropy_reads clk ent : entropy_reads (boot clk ent) = 330%nat.
Proof. by vm_compute. Qed.

Lemma boot_statistics clk ent :
  allocation_history (manager (boot clk ent)) = []
  ∧ total_allocations (manager (boot clk ent)) = 0
  ∧ total_deallocations (manager (boot clk ent)) = 0
  ∧ memory_pressure (manager (boot clk ent)) = 0%Q
  ∧ current_fragmentation (manager (boot clk ent)) = 0%Q
  ∧ last_gc_time (manager (boot clk ent)) = clk 0%nat.
Proof. split_and!; by vm_compute. Qed.

(** X1. The manager right after construction, whatever the clock and the
    entropy source: the ten classes 1, 2, 4, ..., 512 in this order; for a
    class [k] a pool of [block_count k] blocks (50 up to 16 KB, 25 up to
    64 KB, 10 above), all available, none allocated, [used_blocks] 0; 330
    blocks in all, the block number [r] named after its class and the
    draw number [r] of the entropy source, a number from 1000 to 9999,
    with the size of its class and no timestamp; an empty history, the
    counters, the pressure and the fragmentation at 0; [last_gc_time] the
    first reading of the clock. The construction reads the clock once and
    the entropy source 330 times. *)
Theorem construction_state clk ent :
  dict_keys (memory_pools (manager (boot clk ent))) = pool_sizes
  ∧ (∀ k p, pool_of (boot clk ent) k = Some p →
       allocated p = [] ∧ used_blocks p = 0 ∧ total_blocks p = block_count k
       ∧ Z.of_nat (length (available p)) = block_count k
       ∧ ∀ r, r ∈ available p →
           1000 ≤ 1000 + ent r `mod` 9000 ≤ 9999
           ∧ heap (boot clk ent) !!! r
             = mkBlock (block_name k (1000 + ent r `mod` 9000)) k None None None)
  ∧ length (heap (boot clk ent)) = 330%nat
  ∧ allocation_history (manager (boot clk ent)) = []
  ∧ total_allocations (manager (boot clk ent)) = 0
  ∧ total_deallocations (manager (boot clk ent)) = 0
  ∧ memory_pressure (manager (boot clk ent)) = 0%Q
  ∧ current_fragmentation (manager (boot clk ent)) = 0%Q
  ∧ last_gc_time (manager (boot clk ent)) = clk 0%nat
  ∧ clock_reads (boot clk ent) = 1%nat
  ∧ entropy_reads (boot clk ent) = 330%nat.
Proof.
  destruct (boot_statistics clk ent) as (H1 & H2 & H3 & H4 & H5 & H6).
  split; [by rewrite boot_memory_pools|].
  split; [|rewrite boot_heap_eq, boot_heap_length, boot_clock_reads, boot_entropy_reads;
           repeat (split; [assumption || reflexivity|]); reflexivity].
  intros k p Hp. rewrite pool_of_boot in Hp. apply dict_get_elem in Hp.
  pose proof boot_pools_shape as Hshape. rewrite Forall_forall in Hshape.
  destruct (Hshape _ Hp) as (Hal & Hused & Htotal & Hlen). cbn [fst snd] in Hal, Hused, Htotal, Hlen.
  repeat (split; [assumption|]).
  intros r Hr. rewrite boot_heap_eq.
  pose proof boot_pools_classes as Hclasses. rewrite Forall_forall in Hclasses.
  destruct (Hclasses _ Hp) as (Hav & _). cbn [fst snd] in Hav.
  rewrite Forall_forall in Hav.
  destruct (boot_heap_lookup ent r k (Hav r Hr)) as [_ ->].
  pose proof (Z.mod_pos_bound (ent r) 9000). split; [lia | reflexivity].
Qed.

(** ** [_update_memory_stats] with a total of 0 *)

(** X19. [_update_memory_stats] with a total of 0 raises the division
    error after it has stored the fragmentation: the fragmentation is 5
    afterwards, the pressure is the one before the call, and pools, blocks,
    history and counters are untouched. *)
Theorem update_memory_stats_with_zero_total w used_mb :
  ∃ e w',
    _update_memory_stats used_mb 0 w = (Raise e, w')
    ∧ current_fragmentation (manager w') = 5%Q
    ∧ memory_pressure (manager w') = memory_pressure (manager w)
    ∧ memory_pools (manager w') = memory_pools (manager w)
    ∧ allocation_history (manager w') = allocation_history (manager w)
    ∧ heap w' = heap w.
Proof. eexists _, _. split; [apply update_memory_stats_zero|]. done. Qed.

(** ** Timestamps *)

Lemma conserved_NoDup w k p :
  conserved w → pool_of w k = Some p → NoDup (available p ++ allocated p).
Proof.
  intros (_ & _ & _ & Hpools) Hp.
  destruct (Forall_pool_conserved _ _ _ Hpools Hp) as (p0 & Hp0 & Hperm).
  cbn [fst snd] in Hp0, Hperm. rewrite Hperm. apply dict_get_elem in Hp0.
  pose proof boot_pools_classes as H. rewrite Forall_forall in H.
  by destruct (H _ Hp0) as (_ & _ & Hnd).
Qed.

Lemma conserved_keys_NoDup w : conserved w → NoDup (dict_keys (memory_pools (manager w))).
Proof. intros (-> & _). apply pool_sizes_NoDup. Qed.

Lemma conserved_other_class w k p k' p' r r' :
  conserved w → pool_of w k = Some p → pool_of w k' = Some p' → k ≠ k' →
  r ∈ available p ++ allocated p → r' ∈ available p' ++ allocated p' → r ≠ r'.
Proof.
  intros Hc Hp Hp' Hne Hr Hr' ->.
  pose proof (conserved_class w k p r' Hc Hp Hr).
  pose proof (conserved_class w k' p' r' Hc Hp' Hr'). congruence.
Qed.

Lemma stamped_frame w w' r :
  heap w' !!! r = heap w !!! r → clock w' = clock w →
  (clock_reads w ≤ clock_reads w')%nat → stamped w r → stamped w' r.
Proof.
  intros Hh Hc Hn (n & Hlt & H1 & H2 & H3). exists n. rewrite Hh, Hc.
  split_and!; [lia | done..].
Qed.

Lemma pool_stamps_frame w w' kp :
  (∀ r, r ∈ available kp.2 ++ allocated kp.2 → heap w' !!! r = heap w !!! r) →
  clock w' = clock w → (clock_reads w ≤ clock_reads w')%nat →
  pool_stamps w kp → pool_stamps w' kp.
Proof.
  intros Hh Hc Hn [Hav Hal]. split.
  - apply Forall_forall. intros r Hr. rewrite Forall_forall in Hav.
    unfold unstamped. rewrite Hh by (apply elem_of_app; by left). by apply Hav.
  - apply Forall_forall. intros r Hr. rewrite Forall_forall in Hal.
    apply (stamped_frame w); [|done..| by apply Hal].
    apply Hh. apply elem_of_app. by right.
Qed.

Lemma stamps_ok_allocate size priority : preserves stamps_ok (allocate_memory size priority).
Proof.
  intros w [Hc Hall]. split; [by apply conserved_allocate|].
  destruct (allocate_memory_cases w size priority)
    as [[_ ->]|(k & p & r & rest & _ & Hp & Hav & ->)]; [done|].
  cbn [snd].
  set (w' := allocated_world w size priority k p r rest).
  assert (Hrin : r ∈ available p ++ allocated p).
  { rewrite Hav. apply elem_of_app. left. apply elem_of_app. right. by left. }
  destruct (conserved_block w k p r Hc Hp Hrin) as (Hlt & _).
  pose proof (conserved_NoDup w k p Hc Hp) as Hnd. rewrite Hav in Hnd.
  assert (Hother : ∀ r', r' ≠ r → heap w' !!! r' = heap w !!! r').
  { intros r' Hne. unfold w'. simpl. by rewrite !list_lookup_total_alter_ne. }
  change (memory_pools (manager w'))
    with (dict_set k (mkPool rest (allocated p ++ [r]) (total_blocks p) (used_blocks p + 1))
            (memory_pools (manager w))).
  eapply Forall_dict_set; [by apply conserved_keys_NoDup | exact Hall | |].
  - intros [k' p'] Hin Hne Hst. cbn [fst] in Hne.
    apply (pool_stamps_frame w); [|done|simpl; lia|done].
    intros r' Hr'. apply Hother. cbn [snd] in Hr'.
    apply not_eq_sym.
    eapply (conserved_other_class w k p k' p'); eauto.
    apply dict_get_NoDup; [by apply conserved_keys_NoDup | done].
  - pose proof (Forall_forall (pool_stamps w) (memory_pools (manager w))) as [Hf _].
    destruct (Hf Hall (k, p) (dict_get_elem _ _ _ Hp)) as [Hav0 Hal0].
    cbn [snd] in Hav0, Hal0. rewrite Hav in Hav0.
    apply Forall_app in Hav0 as [Hrest _].
    split; cbn [snd available allocated].
    + apply Forall_forall. intros r' Hr'. rewrite Forall_forall in Hrest.
      unfold unstamped. rewrite Hother; [by apply Hrest|].
      intros ->. apply NoDup_app in Hnd as (Hnd & _). apply NoDup_app in Hnd as (_ & Hdisj & _).
      apply (Hdisj r Hr'). by left.
    + apply Forall_app. split.
      * apply Forall_forall. intros r' Hr'. rewrite Forall_forall in Hal0.
        apply (stamped_frame w); [|done|simpl; lia|by apply Hal0].
        apply Hother. intros ->. apply NoDup_app in Hnd as (_ & Hdisj & _).
        apply (Hdisj r); [|done]. apply elem_of_app. right. by left.
      * apply Forall_singleton. exists (clock_reads w). unfold w'. simpl.
        rewrite stamped_block by done. simpl. split_and!; [lia | done | done | by eexists].
Qed.

Lemma stamps_ok_deallocate block_id : preserves stamps_ok (deallocate_memory block_id).
Proof.
  intros w [Hc Hall]. split; [by apply conserved_deallocate|].
  destruct (deallocate_memory_cases w block_id)
    as [[_ ->]|(k & p & i & r & Hp & Hf & ->)]; [done|].
  apply list_find_Some in Hf as (Hi & _ & _).
  cbn [snd].
  set (w' := deallocated_world w k p i r).
  assert (Hral : r ∈ allocated p) by (apply list_elem_of_lookup; by exists i).
  pose proof (conserved_NoDup w k p Hc Hp) as Hnd.
  assert (Hother : ∀ r', r' ≠ r → heap w' !!! r' = heap w !!! r').
  { intros r' Hne. unfold w'. simpl. by rewrite !list_lookup_total_alter_ne. }
  change (memory_pools (manager w'))
    with (dict_set k (mkPool (available p ++ [r]) (delete i (allocated p))
                        (total_blocks p) (used_blocks p - 1))
            (memory_pools (manager w))).
  eapply Forall_dict_set; [by apply conserved_keys_NoDup | exact Hall | |].
  - intros [k' p'] Hin Hne Hst. cbn [fst] in Hne.
    apply (pool_stamps_frame w); [|done|done|done].
    intros r' Hr'. apply Hother. cbn [snd] in Hr'.
    apply not_eq_sym.
    eapply (conserved_other_class w k p k' p'); eauto.
    + apply dict_get_NoDup; [by apply conserved_keys_NoDup | done].
    + apply elem_of_app. by right.
  - pose proof (Forall_forall (pool_stamps w) (memory_pools (manager w))) as [Hf _].
    destruct (Hf Hall (k, p) (dict_get_elem _ _ _ Hp)) as [Hav0 Hal0].
    cbn [snd] in Hav0, Hal0.
    split; cbn [snd available allocated].
    + apply Forall_app. split.
      * apply Forall_forall. intros r' Hr'. rewrite Forall_forall in Hav0.
        unfold unstamped. rewrite Hother; [by apply Hav0|].
        intros ->. apply NoDup_app in Hnd as (_ & Hdisj & _). by apply (Hdisj r).
      * apply Forall_singleton. unfold unstamped, w'. simpl. apply cleared_timestamps.
    + apply Forall_forall. intros r' Hr'. rewrite Forall_forall in Hal0.
      assert (Hr'al : r' ∈ allocated p) by (by eapply list_elem_of_delete_inv).
      apply (stamped_frame w); [|done|done|by apply Hal0].
      apply Hother. intros ->.
      apply NoDup_app in Hnd as (_ & _ & Hnd).
      rewrite (delete_Permutation _ _ _ Hi) in Hnd. apply NoDup_cons in Hnd as [Hnot _].
      done.
Qed.

Lemma stamps_ok_shift (f : World → World) :
  (∀ w, heap (f w) = heap w) → (∀ w, memory_pools (manager (f w)) = memory_pools (manager w)) →
  (∀ w, clock (f w) = clock w) → (∀ w, (clock_reads w ≤ clock_reads (f w))%nat) →
  (∀ w, entropy (f w) = entropy w) →
  ∀ w, stamps_ok w → stamps_ok (f w).
Proof.
  intros Hh Hp Hc Hn He w [Hcon Hall]. split.
  - unfold conserved in *. by rewrite Hh, Hp, He.
  - rewrite Hp. eapply Forall_impl; [exact Hall|]. intros kp Hkp.
    apply (pool_stamps_frame w); auto. intros r _. by rewrite Hh.
Qed.

Lemma stamps_ok_stats used_mb total_mb :
  preserves stamps_ok (_update_memory_stats used_mb total_mb).
Proof.
  intros w Hw. destruct (decide (total_mb = 0)) as [->|Hne].
  - rewrite update_memory_stats_zero.
    by apply (stamps_ok_shift (set_manager (set_current_fragmentation 5))).
  - rewrite update_memory_stats_run by done.
    by apply (stamps_ok_shift (set_manager (set_memory_pressure _))).
Qed.

Lemma stamps_ok_info : preserves stamps_ok get_memory_info.
Proof.
  intros w Hw. rewrite get_memory_info_run.
  by apply (stamps_ok_shift info_world).
Qed.

Lemma stamps_ok_boot clk ent : stamps_ok (boot clk ent).
Proof.
  split; [apply conserved_boot|].
  rewrite boot_memory_pools. apply Forall_forall. intros [k p] Hin.
  pose proof boot_pools_classes as Hclasses. rewrite Forall_forall in Hclasses.
  destruct (Hclasses _ Hin) as (Hav & Hal & _). cbn [fst snd] in Hav, Hal.
  split; cbn [snd]; [|rewrite Hal; constructor].
  eapply Forall_impl; [exact Hav|]. intros r Hr. cbn beta in Hr.
  unfold unstamped. rewrite boot_heap_eq.
  by destruct (boot_heap_lookup ent r k Hr) as [_ ->].
Qed.

Lemma reachable_stamps_ok w : reachable w → stamps_ok w.
Proof.
  intros (clk & ent & calls & ->).
  apply kept_run; auto using stamps_ok_allocate, stamps_ok_deallocate, stamps_ok_stats,
    stamps_ok_info, stamps_ok_boot.
  - intros w Hw. apply (stamps_ok_shift (λ w, (time_time w).2)); try done.
    intros w0. simpl. lia.
  - intros x w Hw. by apply (stamps_ok_shift (set_manager (set_last_gc_time x))).
Qed.

(** X9. A block is stamped exactly while it is allocated, and
    ['last_access'] is never refreshed: in every reachable world an
    available block has neither timestamp, and an allocated block has a
    priority and the two consecutive readings of the clock taken by its
    allocation, ['allocated_at'] the earlier and ['last_access'] the later,
    both before the present reading. *)
Theorem timestamps_follow_allocation w k p :
  reachable w → pool_of w k = Some p →
  (∀ r, r ∈ available p →
     b_allocated_at (heap w !!! r) = None ∧ b_last_access (heap w !!! r) = None)
  ∧ (∀ r, r ∈ allocated p →
       ∃ n, (S n < clock_reads w)%nat
            ∧ b_allocated_at (heap w !!! r) = Some (clock w n)
            ∧ b_last_access (heap w !!! r) = Some (clock w (S n))
            ∧ is_Some (b_priority (heap w !!! r))).
Proof.
  intros [_ Hall]%reachable_stamps_ok Hp%pool_of_elem.
  rewrite Forall_forall in Hall. destruct (Hall _ Hp) as [Hav Hal].
  cbn [snd] in Hav, Hal. rewrite Forall_forall in Hav, Hal. done.
Qed.

Lemma timestamps_follow_allocation_witness :
  ∃ n, (S n < clock_reads demo_world)%nat
       ∧ b_allocated_at (heap demo_world !!! 149%nat) = Some (clock demo_world n)
       ∧ b_last_access (heap demo_world !!! 149%nat) = Some (clock demo_world (S n)).
Proof.
  assert (Hp : pool_of demo_world 4 = Some (mkPool (seq 100 49) [149%nat] 50 1))
    by (by vm_compute).
  destruct (timestamps_follow_allocation demo_world 4 _ reachable_demo_world Hp) as [_ H].
  destruct (H 149%nat) as (n & Hn & H1 & H2 & _); [by left|].
  exists n. split; [exact Hn|]. split; [exact H1 | exact H2].
Defined.

(** ** The priority of a request *)

(** X20. The priority has no influence on the allocation: two requests
    of the same size in the same world return the same answer, take the
    same block and leave the same pools, whatever their priorities; the
    blocks afterwards agree in identifier, size and both timestamps, and
    differ in nothing but the priority written into the block taken. *)
Theorem priority_has_no_influence w size priority1 priority2 :
  (allocate_memory size priority1 w).1 = (allocate_memory size priority2 w).1
  ∧ memory_pools (manager (allocate_memory size priority1 w).2)
    = memory_pools (manager (allocate_memory size priority2 w).2)
  ∧ ∀ r,
      b_id (heap (allocate_memory size priority1 w).2 !!! r)
      = b_id (heap (allocate_memory size priority2 w).2 !!! r)
      ∧ b_size (heap (allocate_memory size priority1 w).2 !!! r)
        = b_size (heap (allocate_memory size priority2 w).2 !!! r)
      ∧ b_allocated_at (heap (allocate_memory size priority1 w).2 !!! r)
        = b_allocated_at (heap (allocate_memory size priority2 w).2 !!! r)
      ∧ b_last_access (heap (allocate_memory size priority1 w).2 !!! r)
        = b_last_access (heap (allocate_memory size priority2 w).2 !!! r).
Proof.
  destruct (allocate_memory_cases w size priority1)
    as [[Hall ->]|(k & p & r & rest & Hfit & Hp & Hav & ->)].
  - destruct (allocate_memory_cases w size priority2)
      as [[_ ->]|(k & p & r & rest & [(p' & Hp' & Hle & Hne) _] & _ & _ & _)]; [done|].
    exfalso. apply Hne. by apply (Hall k p' Hp').
  - destruct (allocate_memory_cases w size priority2)
      as [[Hall _]|(k2 & p2 & r2 & rest2 & Hfit2 & Hp2 & Hav2 & ->)].
    { destruct Hfit as [(p' & Hp' & Hle & Hne) _]. exfalso. apply Hne. eauto. }
    assert (k2 = k) as ->.
    { destruct Hfit as [Hf Hl], Hfit2 as [Hf2 Hl2]. apply Z.le_antisymm; auto. }
    assert (p2 = p) as -> by congruence.
    rewrite Hav in Hav2. apply app_inj_tail in Hav2 as [<- <-].
    cbn [fst snd]. split_and!; [done | done |].
    intros r'. simpl. destruct (decide (r' = r)) as [->|Hne].
    + destruct (decide (r < length (heap w))%nat) as [Hlt|Hge].
      * by rewrite !stamped_block by done.
      * by rewrite !lookup_total_dangling by (rewrite !length_alter; lia).
    + by rewrite !list_lookup_total_alter_ne by done.
Qed.

(** ** The rows of [get_memory_map] *)

Lemma utilization_range a b :
  0 ≤ a ≤ b → 0 < b → (0 <= inject_Z a / inject_Z b * 100 <= 100)%Q.
Proof.
  intros Ha Hb. destruct b as [|b|b]; try lia.
  unfold Qle, Qdiv, Qmult, Qinv, inject_Z. simpl. split; nia.
Qed.

(** X21. In every reachable world [get_memory_map] returns, without
    changing anything, one row for each size class in the order of the
    ladder, keyed ["1KB"] to ["512KB"]; the row of a class gives the
    capacity fixed at construction as [total_blocks], a number of used
    blocks between 0 and that capacity, and a utilization between 0 and
    100 percent. *)
Theorem memory_map_rows w :
  reachable w →
  ∃ rows,
    get_memory_map w = (Return rows, w)
    ∧ rows.*1 = (λ k, pretty k +:+ "KB") <$> pool_sizes
    ∧ (λ row : string * MapEntry, map_total_blocks row.2) <$> rows = block_count <$> pool_sizes
    ∧ Forall (λ row : string * MapEntry,
                0 ≤ map_used_blocks row.2 ≤ map_total_blocks row.2
                ∧ (0 <= map_utilization row.2 <= 100)%Q) rows.
Proof.
  intros Hw. pose proof (reachable_pools_ok w Hw) as Hok.
  exists (map_row <$> memory_pools (manager w)). split; [by apply get_memory_map_run|].
  destruct Hok as [Hkeys Hall]. rewrite <- Hkeys. unfold dict_keys.
  rewrite <- !list_fmap_compose. split; [done|]. split.
  - apply Forall_fmap_ext_1. eapply Forall_impl; [exact Hall|].
    by intros [k p] (_ & _ & Hcap).
  - apply Forall_fmap. eapply Forall_impl; [exact Hall|].
    intros [k p] (Htotal & Hused & Hcap). cbn [fst snd] in *.
    unfold map_row. cbn [fst snd map_used_blocks map_total_blocks map_utilization].
    assert (0 ≤ Z.of_nat (length (allocated p)) ≤ total_blocks p) by lia.
    assert (0 < total_blocks p).
    { rewrite Hcap. unfold block_count. by repeat case_match. }
    split; [done | by apply utilization_range].
Qed.

Lemma memory_map_rows_witness :
  ∃ rows, get_memory_map demo_world = (Return rows, demo_world) ∧ length rows = 10%nat.
Proof.
  destruct (memory_map_rows demo_world reachable_demo_world) as (rows & Hrun & Hkeys & _).
  exists rows. split; [exact Hrun|].
  rewrite <- (length_fmap fst), Hkeys, length_fmap. reflexivity.
Defined.
